(** * Line actions for the 1Writer editor: a shallow embedding

    The repository holds three short editor actions written against the
    scripting interface declared in [onewriter.d.ts]:

    - [actions/Move Up Current Line.js]
    - [actions/Move Down Current Line.js]
    - the action that reselects the current line without its trailing
      newline (1writerapp.com/actiondir/action/4f0e3)

    Each action is a straight-line sequence of calls on the host object
    [editor].  The actions are embedded as computations in a small
    state-and-log monad over an in-memory editor; the JavaScript string
    primitives they use ([lastIndexOf], [indexOf], [length], template
    concatenation, [===]) are embedded as list functions over code units. *)

From Stdlib Require Import List ZArith Ascii Bool Lia Permutation.
Import ListNotations.

Open Scope Z_scope.

(* ================================================================= *)
(** ** JavaScript strings *)

Module JS.

(** A string is its sequence of code units.  The actions only ever compare
    a code unit with the line feed, so one byte per unit is enough. *)
Abbreviation jsstring := (list ascii) (only parsing).

(** ["\n"] *)
Definition nl : ascii := "010"%char.

(** [s.length] *)
Definition strlen (t : jsstring) : Z := Z.of_nat (length t).

(** [a === b] on strings *)
Fixpoint streq (a b : jsstring) : bool :=
  match a, b with
  | [], [] => true
  | x :: a', y :: b' => Ascii.eqb x y && streq a' b'
  | _, _ => false
  end.

(** The clamping of a position between two bounds used by ECMAScript's
    string searches. *)
Definition clamp (x lo hi : Z) : Z := Z.min (Z.max x lo) hi.

(** Search of the code unit [c] at the indices [n-1], [n-2], ..., [0], in
    this order. *)
Fixpoint scanBack (c : ascii) (t : jsstring) (n : nat) : Z :=
  match n with
  | O => -1
  | S m =>
      match nth_error t m with
      | Some x => if Ascii.eqb x c then Z.of_nat m else scanBack c t m
      | None => scanBack c t m
      end
  end.

(** [t.lastIndexOf(c, pos)] for a search string of one code unit: the
    start is [pos] clamped between [0] and [t.length - 1], the candidates
    are tried from the start downwards, and [-1] is the answer when none
    matches. *)
Definition lastIndexOf (t : jsstring) (c : ascii) (pos : Z) : Z :=
  scanBack c t (Z.to_nat (clamp pos 0 (strlen t - 1) + 1)).

(** Search of [c] in [t], whose first code unit has index [k]. *)
Fixpoint scanFwd (c : ascii) (t : jsstring) (k : Z) : Z :=
  match t with
  | [] => -1
  | x :: t' => if Ascii.eqb x c then k else scanFwd c t' (k + 1)
  end.

(** [t.indexOf(c, pos)] for a search string of one code unit: the start is
    [pos] clamped between [0] and [t.length]. *)
Definition indexOf (t : jsstring) (c : ascii) (pos : Z) : Z :=
  let k := clamp pos 0 (strlen t) in
  scanFwd c (skipn (Z.to_nat k) t) k.

End JS.

Import JS.

(* ================================================================= *)
(** ** The host editor *)

(** The state of the editor that the actions can observe: the text of the
    document and the selected range. *)
Record Editor : Type := mkEditor {
  text : jsstring;
  selection : Z * Z
}.

(** The calls of [interface Editor] that the actions make. *)
Inductive HostCall : Type :=
| CallGetSelectedLineRange
| CallGetTextInRange (start end_ : Z)
| CallGetText
| CallReplaceTextInRange (start end_ : Z) (replacement : jsstring)
| CallSetSelectedRange (start : Z) (end_ : option Z).

(** A call that changes the document. *)
Definition isReplace (c : HostCall) : bool :=
  match c with
  | CallReplaceTextInRange _ _ _ => true
  | _ => false
  end.

(** A call that changes the selection. *)
Definition isSelect (c : HostCall) : bool :=
  match c with
  | CallSetSelectedRange _ _ => true
  | _ => false
  end.

Definition isMutation (c : HostCall) : bool := isReplace c || isSelect c.

(** A script run takes the editor to a result, a new editor and the list
    of the host calls it made, oldest first. *)
Definition Script (A : Type) : Type := Editor -> A * Editor * list HostCall.

Definition ret {A : Type} (a : A) : Script A := fun ed => (a, ed, []).

Definition bind {A B : Type} (m : Script A) (f : A -> Script B) : Script B :=
  fun ed =>
    let '(a, ed1, l1) := m ed in
    let '(b, ed2, l2) := f a ed1 in
    (b, ed2, l1 ++ l2).

Declare Scope script_scope.
Delimit Scope script_scope with script.

Notation "x <- m ;; k" := (bind m (fun x => k))
  (at level 61, m at next level, right associativity) : script_scope.
Notation "' p <- m ;; k" := (bind m (fun x => let 'p := x in k))
  (at level 61, p pattern, m at next level, right associativity) : script_scope.
Notation "m ;; k" := (bind m (fun _ => k))
  (at level 61, right associativity) : script_scope.

(** The three observations of a run. *)
Definition result {A : Type} (r : A * Editor * list HostCall) : A := fst (fst r).
Definition editorAfter {A : Type} (r : A * Editor * list HostCall) : Editor := snd (fst r).
Definition callsOf {A : Type} (r : A * Editor * list HostCall) : list HostCall := snd r.

(** The mutating calls of a run, in order. *)
Definition mutationsOf {A : Type} (r : A * Editor * list HostCall) : list HostCall :=
  filter isMutation (callsOf r).

(** Modelled from the spec: the host's text accessors, which are not part
    of the repository (only their declarations in [onewriter.d.ts] are).
    A range is the half-open pair [[start, end)] of absolute character
    offsets of the spec's data model: it denotes the characters at the
    positions [p] with [start <= p < end] that exist in the buffer. *)
Definition textInRange (t : jsstring) (start end_ : Z) : jsstring :=
  firstn (Z.to_nat (end_ - Z.max 0 start)) (skipn (Z.to_nat start) t).

(** Modelled from the spec: replacing a range removes the characters the
    range denotes and puts the replacement at [start]. *)
Definition replaceInRange (t : jsstring) (start end_ : Z) (r : jsstring) : jsstring :=
  firstn (Z.to_nat start) t ++ r ++ skipn (Z.to_nat (Z.max start end_)) t.

Section Host.

(** What the host answers to [getSelectedLineRange()] for a given text and
    selection.  The convention of the host is left open. *)
Variable selectedLineRange : jsstring -> Z * Z -> Z * Z.

Definition getSelectedLineRange : Script (Z * Z) :=
  fun ed => (selectedLineRange (text ed) (selection ed), ed, [CallGetSelectedLineRange]).

Definition getTextInRange (start end_ : Z) : Script jsstring :=
  fun ed => (textInRange (text ed) start end_, ed, [CallGetTextInRange start end_]).

Definition getText : Script jsstring :=
  fun ed => (text ed, ed, [CallGetText]).

(** Modelled from the spec: the replacement changes the text; how the host
    moves its own selection on a replacement is not declared, and the
    selection component stays as it is. *)
Definition replaceTextInRange (start end_ : Z) (replacement : jsstring) : Script unit :=
  fun ed =>
    (tt,
     mkEditor (replaceInRange (text ed) start end_ replacement) (selection ed),
     [CallReplaceTextInRange start end_ replacement]).

(** [setSelectedRange(start, end?)]: without [end] the caret moves to
    [start]. *)
Definition setSelectedRange (start : Z) (end_ : option Z) : Script unit :=
  fun ed =>
    (tt,
     mkEditor (text ed) (start, match end_ with Some e => e | None => start end),
     [CallSetSelectedRange start end_]).

(* ================================================================= *)
(** ** The actions *)

Open Scope script_scope.

(** The start of the previous line, from the newline search of
    [Move Up Current Line.js]. *)
Definition prevStartOf (txt : jsstring) (prevEnd : Z) : Z :=
  let prevStart := lastIndexOf txt nl (prevEnd - 1) in
  if prevStart =? -1 then 0 else prevStart + 1.

(** The end of the next line, from the newline search of
    [Move Down Current Line.js]. *)
Definition nextEndOf (txt : jsstring) (nextStart : Z) : Z :=
  let nextEnd := indexOf txt nl nextStart in
  if nextEnd =? -1 then strlen txt else nextEnd.

(** [actions/Move Up Current Line.js] *)
Definition Move_Up_Current_Line : Script unit :=
  '(start, end_) <- getSelectedLineRange ;;
  currentLine <- getTextInRange start end_ ;;
  txt <- getText ;;
  let prevEnd := start - 1 in
  if prevEnd >? 0 then
    let prevStart := prevStartOf txt prevEnd in
    prevLine <- getTextInRange prevStart prevEnd ;;
    replaceTextInRange prevStart end_ (currentLine ++ [nl] ++ prevLine) ;;
    setSelectedRange prevStart None
  else ret tt.

(** [actions/Move Down Current Line.js] *)
Definition Move_Down_Current_Line : Script unit :=
  '(start, end_) <- getSelectedLineRange ;;
  currentLine <- getTextInRange start end_ ;;
  txt <- getText ;;
  let nextStart := end_ + 1 in
  if nextStart <? strlen txt then
    let nextEnd := nextEndOf txt nextStart in
    nextLine <- getTextInRange nextStart nextEnd ;;
    replaceTextInRange start nextEnd (nextLine ++ [nl] ++ currentLine)
  else ret tt.

(** The action that reselects the line without its trailing newline. *)
Definition Select_Line_Without_Newline : Script unit :=
  '(start, end_) <- getSelectedLineRange ;;
  let eol := start + end_ in
  guard <- getTextInRange (eol - 1) 1 ;;
  let eol := if streq guard [nl] then eol - 1 else eol in
  setSelectedRange start (Some (eol - start)).

Close Scope script_scope.

End Host.

(* ================================================================= *)
(** ** Lines of a buffer *)

(** A buffer is its lines joined by single newlines; a line holds no
    newline. *)
Fixpoint joinLines (ls : list jsstring) : jsstring :=
  match ls with
  | [] => []
  | l :: rest =>
      match rest with
      | [] => l
      | _ :: _ => l ++ nl :: joinLines rest
      end
  end.

Definition noNewline (l : jsstring) : Prop := Forall (fun c => c <> nl) l.

(** The offset at which line [i] starts: every earlier line and its
    newline come before it. *)
Definition lineStart (ls : list jsstring) (i : nat) : Z :=
  strlen (concat (map (fun l => l ++ [nl]) (firstn i ls))).

(** The range of line [i], without its newline. *)
Definition lineRangeOf (ls : list jsstring) (i : nat) : Z * Z :=
  (lineStart ls i, lineStart ls i + strlen (nth i ls [])).

(** The lines with lines [i] and [i+1] exchanged. *)
Fixpoint swapLines (i : nat) (ls : list jsstring) : list jsstring :=
  match i, ls with
  | O, a :: b :: rest => b :: a :: rest
  | S j, a :: rest => a :: swapLines j rest
  | _, _ => ls
  end.

(** Whether a text ends in a newline. *)
Definition endsWithNewline (t : jsstring) : bool :=
  match rev t with
  | c :: _ => Ascii.eqb c nl
  | [] => false
  end.

(** Following the spec's words: the range that the trim of a line range is
    to select, the range without its last character when the text it spans
    ends in a newline, and the range itself otherwise. *)
Definition trimmedRange (t : jsstring) (r : Z * Z) : Z * Z :=
  if endsWithNewline (textInRange t (fst r) (snd r)) then (fst r, snd r - 1) else r.

(** Modelled from the spec: a host whose [getSelectedLineRange()] answers
    with the range of the lines that include the selection, from the start
    of the first one to the end of the last one, its newline excluded.
    The host is not part of the repository. *)
Definition lineRangeHost (t : jsstring) (sel : Z * Z) : Z * Z :=
  let s := scanBack nl t (Z.to_nat (fst sel)) + 1 in
  let k := clamp (snd sel) 0 (strlen t) in
  let e := scanFwd nl (skipn (Z.to_nat k) t) k in
  (s, if e =? -1 then strlen t else e).

(** A host that answers with one fixed range, whatever the state. *)
Definition fixedRangeHost (r : Z * Z) : jsstring -> Z * Z -> Z * Z :=
  fun _ _ => r.

(* ================================================================= *)
(** ** What a run works with *)

Section Observed.

Variable host : jsstring -> Z * Z -> Z * Z.
Variable ed : Editor.

(** The line range that the host hands to a script started on [ed]. *)
Definition startOf : Z := fst (host (text ed) (selection ed)).
Definition endOf : Z := snd (host (text ed) (selection ed)).

(** The text of the selected line as the scripts read it. *)
Definition currentLineOf : jsstring := textInRange (text ed) startOf endOf.

(** The previous line as [Move Up Current Line.js] finds it. *)
Definition prevStartAt : Z := prevStartOf (text ed) (startOf - 1).
Definition prevLineOf : jsstring := textInRange (text ed) prevStartAt (startOf - 1).

(** The next line as [Move Down Current Line.js] finds it. *)
Definition nextEndAt : Z := nextEndOf (text ed) (endOf + 1).
Definition nextLineOf : jsstring := textInRange (text ed) (endOf + 1) nextEndAt.

End Observed.

(** A range is well formed when it lies in the buffer, start before end. *)
Definition validRange (t : jsstring) (r : Z * Z) : Prop :=
  0 <= fst r <= snd r /\ snd r <= strlen t.

(** What comes before a line: every earlier line with its newline. *)
Definition linesBefore (ls : list jsstring) : jsstring :=
  concat (map (fun l => l ++ [nl]) ls).

(** What comes after a line: every later line behind its newline. *)
Definition linesAfter (ls : list jsstring) : jsstring :=
  concat (map (fun l => nl :: l) ls).

(** Sample buffers: ["a\nb\nc"], ["\nb"] and ["a\n\nb"], as lines. *)
Definition abcLines : list jsstring := [["a"]; ["b"]; ["c"]]%char.
Definition emptyFirstLines : list jsstring := [[]; ["b"]]%char.
Definition emptyMiddleLines : list jsstring := [["a"]; []; ["b"]]%char.

(** One press of "move line up": the editor it leaves. *)
Definition moveUpStep (host : jsstring -> Z * Z -> Z * Z) (ed : Editor) : Editor :=
  editorAfter (Move_Up_Current_Line host ed).

(** A host follows the lines when, with the caret at the start of a line
    of a buffer, it answers with the range of that line, newline
    excluded. *)
Definition followsLines (host : jsstring -> Z * Z -> Z * Z) : Prop :=
  forall (before : list jsstring) (c : jsstring) (after : list jsstring),
    noNewline c ->
    host (joinLines (before ++ c :: after))
         (strlen (linesBefore before), strlen (linesBefore before)) =
      lineRangeOf (before ++ c :: after) (length before).

(* ================================================================= *)
(** ** Facts about the string searches *)

Section Searches.

Variable c : ascii.

Lemma eqb_nl_false (x : ascii) : x <> c -> Ascii.eqb x c = false.
Proof. intros H. apply Ascii.eqb_neq. exact H. Qed.

Lemma strlen_app (a b : jsstring) : strlen (a ++ b) = strlen a + strlen b.
Proof. unfold strlen. rewrite length_app. lia. Qed.

Lemma strlen_nonneg (a : jsstring) : 0 <= strlen a.
Proof. unfold strlen. lia. Qed.

Lemma scanBack_bounds (t : jsstring) (n : nat) :
  -1 <= scanBack c t n < Z.of_nat n.
Proof.
  induction n as [|m IH]; simpl.
  - lia.
  - destruct (nth_error t m) as [x|]; [destruct (Ascii.eqb x c)|]; lia.
Qed.

(** The search only looks below its start. *)
Lemma scanBack_app_low (a b : jsstring) (n : nat) :
  (n <= length a)%nat -> scanBack c (a ++ b) n = scanBack c a n.
Proof.
  induction n as [|m IH]; intros Hn; simpl.
  - reflexivity.
  - rewrite nth_error_app1 by lia. rewrite IH by lia. reflexivity.
Qed.

(** Code units other than [c] are skipped. *)
Lemma scanBack_skip (a p : jsstring) (k : nat) :
  Forall (fun x => x <> c) p -> (k <= length p)%nat ->
  scanBack c (a ++ p) (length a + k) = scanBack c a (length a).
Proof.
  intros Hp. induction k as [|k IH]; intros Hk.
  - rewrite Nat.add_0_r. apply scanBack_app_low. lia.
  - replace (length a + S k)%nat with (S (length a + k)) by lia. simpl.
    rewrite nth_error_app2 by lia.
    replace (length a + k - length a)%nat with k by lia.
    destruct (nth_error p k) as [x|] eqn:E.
    + rewrite eqb_nl_false.
      * apply IH. lia.
      * apply nth_error_In in E. rewrite Forall_forall in Hp. apply Hp. exact E.
    + apply IH. lia.
Qed.

Lemma scanBack_none (p : jsstring) :
  Forall (fun x => x <> c) p -> scanBack c p (length p) = -1.
Proof.
  intros Hp. apply (scanBack_skip [] p (length p)) in Hp; [|lia].
  simpl in Hp. exact Hp.
Qed.

Lemma scanBack_hit (a : jsstring) :
  scanBack c (a ++ [c]) (length (a ++ [c])) = Z.of_nat (length a).
Proof.
  rewrite length_app. simpl. replace (length a + 1)%nat with (S (length a)) by lia.
  simpl. rewrite nth_error_app2 by lia. rewrite Nat.sub_diag. simpl.
  rewrite Ascii.eqb_refl. reflexivity.
Qed.

Lemma scanFwd_bounds (t : jsstring) (k : Z) :
  scanFwd c t k = -1 \/ k <= scanFwd c t k < k + strlen t.
Proof.
  revert k. induction t as [|x t IH]; intros k; simpl.
  - left. reflexivity.
  - destruct (Ascii.eqb x c).
    + right. unfold strlen. simpl length. lia.
    + destruct (IH (k + 1)) as [H|H].
      * left. exact H.
      * right. unfold strlen in *. simpl length. lia.
Qed.

Lemma scanFwd_none (p : jsstring) (k : Z) :
  Forall (fun x => x <> c) p -> scanFwd c p k = -1.
Proof.
  intros Hp. revert k. induction Hp as [|x p Hx Hp IH]; intros k; simpl.
  - reflexivity.
  - rewrite eqb_nl_false by exact Hx. apply IH.
Qed.

Lemma scanFwd_hit (p b : jsstring) (k : Z) :
  Forall (fun x => x <> c) p -> scanFwd c (p ++ c :: b) k = k + strlen p.
Proof.
  intros Hp. revert k. induction Hp as [|x p Hx Hp IH]; intros k; simpl.
  - rewrite Ascii.eqb_refl. unfold strlen. simpl. lia.
  - rewrite eqb_nl_false by exact Hx. rewrite IH. unfold strlen. simpl length. lia.
Qed.

End Searches.

(* ================================================================= *)
(** ** Facts about ranges *)

Lemma textInRange_mid (a b d : jsstring) :
  textInRange (a ++ b ++ d) (strlen a) (strlen a + strlen b) = b.
Proof.
  unfold textInRange, strlen.
  rewrite Nat2Z.id.
  replace (Z.to_nat (Z.of_nat (length a) + Z.of_nat (length b) - Z.max 0 (Z.of_nat (length a))))
    with (length b) by lia.
  rewrite skipn_app, skipn_all, Nat.sub_diag. simpl.
  rewrite firstn_app, firstn_all, Nat.sub_diag. simpl. apply app_nil_r.
Qed.

Lemma replaceInRange_mid (a b d r : jsstring) :
  replaceInRange (a ++ b ++ d) (strlen a) (strlen a + strlen b) r = a ++ r ++ d.
Proof.
  unfold replaceInRange, strlen.
  replace (Z.max (Z.of_nat (length a)) (Z.of_nat (length a) + Z.of_nat (length b)))
    with (Z.of_nat (length a + length b)) by lia.
  rewrite !Nat2Z.id.
  rewrite firstn_app, firstn_all, Nat.sub_diag. simpl. rewrite app_nil_r.
  f_equal. f_equal.
  rewrite skipn_app, (skipn_all2 a) by lia. simpl.
  replace (length a + length b - length a)%nat with (length b) by lia.
  rewrite skipn_app, skipn_all, Nat.sub_diag. reflexivity.
Qed.

(** A well-formed range cuts the buffer in three. *)
Lemma range_split (t : jsstring) (s e : Z) :
  0 <= s <= e -> e <= strlen t ->
  exists a b d,
    t = a ++ b ++ d /\ strlen a = s /\ strlen a + strlen b = e /\
    a = firstn (Z.to_nat s) t /\ d = skipn (Z.to_nat e) t.
Proof.
  intros Hse He. unfold strlen in *.
  exists (firstn (Z.to_nat s) t),
         (firstn (Z.to_nat e - Z.to_nat s) (skipn (Z.to_nat s) t)),
         (skipn (Z.to_nat e) t).
  repeat split.
  - replace (skipn (Z.to_nat e) t)
      with (skipn (Z.to_nat e - Z.to_nat s) (skipn (Z.to_nat s) t)).
    + rewrite !firstn_skipn. reflexivity.
    + rewrite skipn_skipn. f_equal. lia.
  - rewrite length_firstn. lia.
  - rewrite !length_firstn, length_skipn. lia.
Qed.

(* ================================================================= *)
(** ** The two branches of each action *)

Section Runs.

Variable host : jsstring -> Z * Z -> Z * Z.
Variable ed : Editor.

Let start := startOf host ed.
Let end_ := endOf host ed.
Let currentLine := currentLineOf host ed.
Let prevStart := prevStartAt host ed.
Let prevLine := prevLineOf host ed.
Let nextEnd := nextEndAt host ed.
Let nextLine := nextLineOf host ed.

Lemma Move_Up_skips :
  start - 1 <= 0 ->
  Move_Up_Current_Line host ed =
    (tt, ed, [CallGetSelectedLineRange; CallGetTextInRange start end_; CallGetText]).
Proof.
  unfold start, end_, Move_Up_Current_Line, bind, getSelectedLineRange, startOf, endOf.
  destruct (host (text ed) (selection ed)) as [s e]. simpl. intros H.
  destruct (Z.gtb_spec (s - 1) 0) as [G|G]; [lia|]. reflexivity.
Qed.

Lemma Move_Up_swaps :
  0 < start - 1 ->
  Move_Up_Current_Line host ed =
    (tt,
     mkEditor (replaceInRange (text ed) prevStart end_ (currentLine ++ [nl] ++ prevLine))
              (prevStart, prevStart),
     [CallGetSelectedLineRange; CallGetTextInRange start end_; CallGetText;
      CallGetTextInRange prevStart (start - 1);
      CallReplaceTextInRange prevStart end_ (currentLine ++ [nl] ++ prevLine);
      CallSetSelectedRange prevStart None]).
Proof.
  unfold start, end_, currentLine, prevStart, prevLine.
  unfold Move_Up_Current_Line, bind, getSelectedLineRange, prevLineOf, currentLineOf,
    prevStartAt, startOf, endOf.
  destruct (host (text ed) (selection ed)) as [s e]. simpl. intros H.
  destruct (Z.gtb_spec (s - 1) 0) as [G|G]; [|lia]. reflexivity.
Qed.

Lemma Move_Down_skips :
  strlen (text ed) <= end_ + 1 ->
  Move_Down_Current_Line host ed =
    (tt, ed, [CallGetSelectedLineRange; CallGetTextInRange start end_; CallGetText]).
Proof.
  unfold start, end_, Move_Down_Current_Line, bind, getSelectedLineRange, startOf, endOf.
  destruct (host (text ed) (selection ed)) as [s e]. simpl. intros H.
  destruct (Z.ltb_spec (e + 1) (strlen (text ed))) as [G|G]; [lia|]. reflexivity.
Qed.

Lemma Move_Down_swaps :
  end_ + 1 < strlen (text ed) ->
  Move_Down_Current_Line host ed =
    (tt,
     mkEditor (replaceInRange (text ed) start nextEnd (nextLine ++ [nl] ++ currentLine))
              (selection ed),
     [CallGetSelectedLineRange; CallGetTextInRange start end_; CallGetText;
      CallGetTextInRange (end_ + 1) nextEnd;
      CallReplaceTextInRange start nextEnd (nextLine ++ [nl] ++ currentLine)]).
Proof.
  unfold start, end_, currentLine, nextEnd, nextLine.
  unfold Move_Down_Current_Line, bind, getSelectedLineRange, nextLineOf, currentLineOf,
    nextEndAt, startOf, endOf.
  destruct (host (text ed) (selection ed)) as [s e]. simpl. intros H.
  destruct (Z.ltb_spec (e + 1) (strlen (text ed))) as [G|G]; [|lia]. reflexivity.
Qed.

(** The guard of the trim action reads nothing once [start + end] is two
    or more: its range ends at offset 1 and starts at or after it. *)
Lemma trim_guard_reads_nothing :
  2 <= start + end_ -> textInRange (text ed) (start + end_ - 1) 1 = [].
Proof.
  intros H. unfold textInRange.
  replace (Z.to_nat (1 - Z.max 0 (start + end_ - 1))) with O by lia.
  reflexivity.
Qed.

Lemma Select_Line_keeps :
  2 <= start + end_ ->
  Select_Line_Without_Newline host ed =
    (tt, mkEditor (text ed) (start, end_),
     [CallGetSelectedLineRange; CallGetTextInRange (start + end_ - 1) 1;
      CallSetSelectedRange start (Some end_)]).
Proof.
  intros H. pose proof (trim_guard_reads_nothing H) as G. revert G.
  unfold start, end_.
  unfold Select_Line_Without_Newline, bind, getSelectedLineRange, getTextInRange,
    setSelectedRange, startOf, endOf.
  destruct (host (text ed) (selection ed)) as [s e]. simpl. intros G.
  rewrite G. simpl.
  replace (s + e - s) with e by lia. reflexivity.
Qed.

End Runs.

(* ================================================================= *)
(** ** The shape of a swap on any well-formed range *)

(** Goals about lengths of concatenations. *)
Ltac lengths :=
  unfold strlen in *;
  repeat match goal with
         | H : context [length (_ ++ _)] |- _ => rewrite length_app in H
         | H : context [length (_ :: _)] |- _ => simpl length in H
         end;
  rewrite ?length_app; simpl length; lia.

Lemma prevStartOf_bounds (t : jsstring) (prevEnd : Z) :
  0 < prevEnd -> 0 <= prevStartOf t prevEnd <= prevEnd.
Proof.
  intros H. unfold prevStartOf, lastIndexOf.
  set (n := Z.to_nat (clamp (prevEnd - 1) 0 (strlen t - 1) + 1)).
  pose proof (scanBack_bounds nl t n) as B.
  assert (Z.of_nat n <= prevEnd) by (unfold n, clamp; lia).
  destruct (Z.eqb_spec (scanBack nl t n) (-1)); lia.
Qed.

Lemma nextEndOf_bounds (t : jsstring) (nextStart : Z) :
  0 <= nextStart <= strlen t -> nextStart <= nextEndOf t nextStart <= strlen t.
Proof.
  intros H. unfold nextEndOf, indexOf.
  replace (clamp nextStart 0 (strlen t)) with nextStart by (unfold clamp; lia).
  pose proof (scanFwd_bounds nl (skipn (Z.to_nat nextStart) t) nextStart) as B.
  assert (L : strlen (skipn (Z.to_nat nextStart) t) = strlen t - nextStart)
    by (unfold strlen in *; rewrite length_skipn; lia).
  rewrite L in B.
  destruct (Z.eqb_spec (scanFwd nl (skipn (Z.to_nat nextStart) t) nextStart) (-1)); lia.
Qed.

Lemma one_unit (x : jsstring) : strlen x = 1 -> exists u, x = [u].
Proof.
  unfold strlen. destruct x as [|u [|v x]]; simpl; intros H; try lia.
  exists u. reflexivity.
Qed.

Section Shapes.

Variable host : jsstring -> Z * Z -> Z * Z.
Variable ed : Editor.

Hypothesis Hvalid : validRange (text ed) (host (text ed) (selection ed)).

Lemma Move_Up_shape :
  0 < startOf host ed - 1 ->
  exists a p u c d,
    text ed = a ++ (p ++ [u] ++ c) ++ d /\
    strlen a = prevStartAt host ed /\
    strlen a + strlen (p ++ [u] ++ c) = endOf host ed /\
    prevLineOf host ed = p /\ currentLineOf host ed = c /\
    text (editorAfter (Move_Up_Current_Line host ed)) = a ++ (c ++ [nl] ++ p) ++ d.
Proof.
  intros G. rewrite (Move_Up_swaps host ed G). unfold editorAfter. simpl.
  destruct Hvalid as [[H0 H1] H2]. fold (startOf host ed) in H0, H1.
  fold (endOf host ed) in H1, H2.
  pose proof (prevStartOf_bounds (text ed) (startOf host ed - 1) G) as B.
  fold (prevStartAt host ed) in B.
  destruct (range_split (text ed) (startOf host ed) (endOf host ed)) as
    (a' & c & d & Et & La' & Lc & _ & _); [lia|lia|].
  destruct (range_split a' (prevStartAt host ed) (startOf host ed - 1)) as
    (a & p & x & Ea & La & Lp & _ & _); [lia|lia|].
  subst a'.
  assert (Lx : strlen x = 1) by lengths.
  destruct (one_unit x Lx) as [u ->].
  assert (Ep : prevLineOf host ed = p).
  { unfold prevLineOf. rewrite Et, <- La, <- Lp, <- !app_assoc.
    apply textInRange_mid. }
  assert (Ec : currentLineOf host ed = c).
  { unfold currentLineOf. rewrite Et, <- La', <- Lc. apply textInRange_mid. }
  exists a, p, u, c, d. rewrite Ep, Ec.
  assert (Lall : strlen a + strlen (p ++ [u] ++ c) = endOf host ed) by lengths.
  assert (Et' : text ed = a ++ (p ++ [u] ++ c) ++ d)
    by (rewrite Et, <- !app_assoc; reflexivity).
  repeat split; try assumption.
  rewrite <- La at 1. rewrite <- Lall, Et'.
  apply replaceInRange_mid.
Qed.

Lemma Move_Down_shape :
  endOf host ed + 1 < strlen (text ed) ->
  exists a c u n d,
    text ed = a ++ (c ++ [u] ++ n) ++ d /\
    strlen a = startOf host ed /\
    strlen a + strlen (c ++ [u] ++ n) = nextEndAt host ed /\
    nextLineOf host ed = n /\ currentLineOf host ed = c /\
    text (editorAfter (Move_Down_Current_Line host ed)) = a ++ (n ++ [nl] ++ c) ++ d.
Proof.
  intros G. rewrite (Move_Down_swaps host ed G). unfold editorAfter. simpl.
  destruct Hvalid as [[H0 H1] H2]. fold (startOf host ed) in H0, H1.
  fold (endOf host ed) in H1, H2.
  assert (B : endOf host ed + 1 <= nextEndAt host ed <= strlen (text ed))
    by (apply nextEndOf_bounds; lia).
  destruct (range_split (text ed) (startOf host ed) (nextEndAt host ed)) as
    (a & b & d & Et & La & Lb & _ & _); [lia|lia|].
  destruct (range_split b (endOf host ed - startOf host ed)
              (endOf host ed + 1 - startOf host ed)) as
    (c & x & n & Eb & Lc & Lx & _ & _); [lia|lia|].
  subst b.
  assert (Lx1 : strlen x = 1) by lia.
  destruct (one_unit x Lx1) as [u ->].
  assert (En : nextLineOf host ed = n).
  { unfold nextLineOf.
    replace (text ed) with ((a ++ c ++ [u]) ++ n ++ d)
      by (rewrite Et, <- !app_assoc; reflexivity).
    replace (endOf host ed + 1) with (strlen (a ++ c ++ [u])) by lengths.
    replace (nextEndAt host ed) with (strlen (a ++ c ++ [u]) + strlen n) by lengths.
    apply textInRange_mid. }
  assert (Ec : currentLineOf host ed = c).
  { unfold currentLineOf.
    replace (text ed) with (a ++ c ++ ([u] ++ n ++ d))
      by (rewrite Et, <- !app_assoc; reflexivity).
    rewrite <- La. replace (endOf host ed) with (strlen a + strlen c) by lia.
    apply textInRange_mid. }
  exists a, c, u, n, d. rewrite En, Ec.
  repeat split; try assumption.
  rewrite <- La, <- Lb, Et. apply replaceInRange_mid.
Qed.

End Shapes.

(** What lies outside a replaced span of unchanged length stays in place. *)
Lemma nth_error_outside (a b b' d : jsstring) (i : nat) :
  length b = length b' ->
  (i < length a \/ length a + length b <= i)%nat ->
  nth_error (a ++ b' ++ d) i = nth_error (a ++ b ++ d) i.
Proof.
  intros L [H|H].
  - rewrite !nth_error_app1 by lia. reflexivity.
  - rewrite !(nth_error_app2 a) by lia.
    rewrite !nth_error_app2 by lia. rewrite L. reflexivity.
Qed.

(* ================================================================= *)
(** ** The swap on a range that is a line *)

Section LineSwap.

Variable host : jsstring -> Z * Z -> Z * Z.
Variable ed : Editor.

(** The previous line [P] lies between [A], which is empty or ends with a
    newline, and the newline before the current line [C]. *)
Lemma prevStartOf_line (A P R : jsstring) :
  noNewline P -> (A = [] \/ exists A', A = A' ++ [nl]) ->
  1 <= strlen A + strlen P ->
  prevStartOf (A ++ P ++ nl :: R) (strlen A + strlen P) = strlen A.
Proof.
  intros HP HA H1. unfold prevStartOf, lastIndexOf.
  replace (Z.to_nat (clamp (strlen A + strlen P - 1) 0 (strlen (A ++ P ++ nl :: R) - 1) + 1))
    with (length A + length P)%nat by (unfold clamp; lengths).
  rewrite app_assoc, scanBack_app_low by (rewrite length_app; lia).
  rewrite scanBack_skip by (exact HP || lia).
  destruct HA as [->|[A' ->]].
  - reflexivity.
  - rewrite scanBack_hit.
    destruct (Z.eqb_spec (Z.of_nat (length A')) (-1)); lengths.
Qed.

(** The next line [N] lies between the newline after the current line and
    [D], which is empty or starts with a newline. *)
Lemma nextEndOf_line (L N D : jsstring) :
  noNewline N -> (D = [] \/ exists D', D = nl :: D') ->
  nextEndOf (L ++ N ++ D) (strlen L) = strlen L + strlen N.
Proof.
  intros HN HD. unfold nextEndOf, indexOf.
  replace (clamp (strlen L) 0 (strlen (L ++ N ++ D))) with (strlen L)
    by (unfold clamp; lengths).
  assert (Sk : skipn (Z.to_nat (strlen L)) (L ++ N ++ D) = N ++ D).
  { unfold strlen. rewrite Nat2Z.id, skipn_app, skipn_all, Nat.sub_diag.
    reflexivity. }
  rewrite Sk.
  pose proof (strlen_nonneg L). pose proof (strlen_nonneg N).
  destruct HD as [->|[D' ->]].
  - rewrite !app_nil_r, scanFwd_none by exact HN. simpl.
    apply strlen_app.
  - rewrite scanFwd_hit by exact HN.
    destruct (Z.eqb_spec (strlen L + strlen N) (-1)); lia.
Qed.

Lemma Move_Up_on_line (A P C D : jsstring) :
  text ed = A ++ (P ++ [nl] ++ C) ++ D ->
  host (text ed) (selection ed) =
    (strlen A + strlen P + 1, strlen A + strlen P + 1 + strlen C) ->
  noNewline P -> (A = [] \/ exists A', A = A' ++ [nl]) ->
  1 <= strlen A + strlen P ->
  prevStartAt host ed = strlen A /\
  editorAfter (Move_Up_Current_Line host ed) =
    mkEditor (A ++ (C ++ [nl] ++ P) ++ D) (strlen A, strlen A).
Proof.
  intros Et Eh HP HA H1.
  assert (Es : startOf host ed = strlen A + strlen P + 1)
    by (unfold startOf; rewrite Eh; reflexivity).
  assert (Ee : endOf host ed = strlen A + strlen P + 1 + strlen C)
    by (unfold endOf; rewrite Eh; reflexivity).
  rewrite Move_Up_swaps by lia. unfold editorAfter. simpl.
  assert (Eps : prevStartAt host ed = strlen A).
  { unfold prevStartAt. rewrite Es, Et.
    replace (strlen A + strlen P + 1 - 1) with (strlen A + strlen P) by lia.
    rewrite <- !app_assoc. apply prevStartOf_line; assumption. }
  assert (Ep : prevLineOf host ed = P).
  { unfold prevLineOf. rewrite Eps, Es, Et, <- !app_assoc.
    replace (strlen A + strlen P + 1 - 1) with (strlen A + strlen P) by lia.
    apply textInRange_mid. }
  assert (Ec : currentLineOf host ed = C).
  { unfold currentLineOf. rewrite Es, Ee, Et.
    replace (A ++ (P ++ [nl] ++ C) ++ D) with ((A ++ P ++ [nl]) ++ C ++ D)
      by (rewrite <- !app_assoc; reflexivity).
    replace (strlen A + strlen P + 1) with (strlen (A ++ P ++ [nl])) by lengths.
    apply textInRange_mid. }
  split; [exact Eps|].
  rewrite Eps, Ep, Ec, Ee. f_equal.
  rewrite Et.
  replace (strlen A + strlen P + 1 + strlen C)
    with (strlen A + strlen (P ++ [nl] ++ C)) by lengths.
  apply replaceInRange_mid.
Qed.

Lemma Move_Down_on_line (A C N D : jsstring) :
  text ed = A ++ (C ++ [nl] ++ N) ++ D ->
  host (text ed) (selection ed) = (strlen A, strlen A + strlen C) ->
  noNewline N -> (D = [] \/ exists D', D = nl :: D') ->
  1 <= strlen N + strlen D ->
  editorAfter (Move_Down_Current_Line host ed) =
    mkEditor (A ++ (N ++ [nl] ++ C) ++ D) (selection ed).
Proof.
  intros Et Eh HN HD H1.
  assert (Es : startOf host ed = strlen A)
    by (unfold startOf; rewrite Eh; reflexivity).
  assert (Ee : endOf host ed = strlen A + strlen C)
    by (unfold endOf; rewrite Eh; reflexivity).
  rewrite Move_Down_swaps by (rewrite Ee, Et; lengths).
  unfold editorAfter. simpl.
  assert (Et' : text ed = (A ++ C ++ [nl]) ++ N ++ D)
    by (rewrite Et, <- !app_assoc; reflexivity).
  assert (Ene : nextEndAt host ed = strlen (A ++ C ++ [nl]) + strlen N).
  { unfold nextEndAt. rewrite Ee, Et'.
    replace (strlen A + strlen C + 1) with (strlen (A ++ C ++ [nl])) by lengths.
    apply nextEndOf_line; assumption. }
  assert (En : nextLineOf host ed = N).
  { unfold nextLineOf. rewrite Ene, Ee, Et'.
    replace (strlen A + strlen C + 1) with (strlen (A ++ C ++ [nl])) by lengths.
    apply textInRange_mid. }
  assert (Ec : currentLineOf host ed = C).
  { unfold currentLineOf. rewrite Es, Ee, Et, <- !app_assoc.
    apply textInRange_mid. }
  rewrite Ene, En, Ec, Es. f_equal.
  rewrite Et.
  replace (strlen (A ++ C ++ [nl]) + strlen N)
    with (strlen A + strlen (C ++ [nl] ++ N)) by lengths.
  apply replaceInRange_mid.
Qed.

End LineSwap.

(* ================================================================= *)
(** ** Buffers as joined lines *)

Lemma joinLines_cons (l : jsstring) (after : list jsstring) :
  joinLines (l :: after) = l ++ linesAfter after.
Proof.
  revert l. induction after as [|m after IH]; intros l.
  - simpl. rewrite app_nil_r. reflexivity.
  - change (joinLines (l :: m :: after)) with (l ++ nl :: joinLines (m :: after)).
    rewrite IH. reflexivity.
Qed.

Lemma joinLines_app (before : list jsstring) (l : jsstring) (after : list jsstring) :
  joinLines (before ++ l :: after) = linesBefore before ++ l ++ linesAfter after.
Proof.
  induction before as [|b before IH].
  - apply joinLines_cons.
  - replace (joinLines ((b :: before) ++ l :: after))
      with (b ++ nl :: joinLines (before ++ l :: after))
      by (destruct before; reflexivity).
    rewrite IH. unfold linesBefore. simpl. rewrite <- !app_assoc. reflexivity.
Qed.

Lemma linesBefore_shape (ls : list jsstring) :
  linesBefore ls = [] \/ exists A', linesBefore ls = A' ++ [nl].
Proof.
  induction ls as [|l ls _] using rev_ind.
  - left. reflexivity.
  - right. exists (linesBefore ls ++ l). unfold linesBefore.
    rewrite map_app, concat_app. simpl. rewrite app_nil_r, app_assoc. reflexivity.
Qed.

Lemma linesAfter_shape (ls : list jsstring) :
  linesAfter ls = [] \/ exists D', linesAfter ls = nl :: D'.
Proof.
  destruct ls as [|l ls].
  - left. reflexivity.
  - right. exists (l ++ linesAfter ls). reflexivity.
Qed.

Lemma lineStart_at (before rest : list jsstring) :
  lineStart (before ++ rest) (length before) = strlen (linesBefore before).
Proof.
  unfold lineStart, linesBefore.
  rewrite firstn_app, firstn_all, Nat.sub_diag. simpl. rewrite app_nil_r. reflexivity.
Qed.

Lemma lineStart_next (before : list jsstring) (p : jsstring) (rest : list jsstring) :
  lineStart (before ++ p :: rest) (S (length before)) =
    strlen (linesBefore before) + strlen p + 1.
Proof.
  replace (before ++ p :: rest) with ((before ++ [p]) ++ rest)
    by (rewrite <- app_assoc; reflexivity).
  replace (S (length before)) with (length (before ++ [p]))
    by (rewrite length_app; simpl; lia).
  rewrite lineStart_at. unfold linesBefore.
  rewrite map_app, concat_app. simpl. rewrite app_nil_r. lengths.
Qed.

Lemma swapLines_at (before : list jsstring) (p c : jsstring) (after : list jsstring) :
  swapLines (length before) (before ++ p :: c :: after) = before ++ c :: p :: after.
Proof.
  induction before as [|b before IH]; simpl.
  - reflexivity.
  - rewrite IH. reflexivity.
Qed.

(** Two neighbouring lines and what surrounds them. *)
Lemma lines_split (ls : list jsstring) (j : nat) :
  (S j < length ls)%nat ->
  exists before p c after,
    ls = before ++ p :: c :: after /\ length before = j /\
    nth j ls [] = p /\ nth (S j) ls [] = c.
Proof.
  intros H.
  pose proof (firstn_skipn j ls) as E.
  pose proof (length_skipn j ls) as L.
  assert (Lb : length (firstn j ls) = j) by (rewrite length_firstn; lia).
  destruct (skipn j ls) as [|p [|c after]]; simpl in L; try lia.
  exists (firstn j ls), p, c, after.
  split; [symmetry; exact E|]. split; [exact Lb|].
  rewrite <- E. split.
  - rewrite app_nth2 by lia. rewrite Lb, Nat.sub_diag. reflexivity.
  - rewrite app_nth2 by lia. rewrite Lb.
    replace (S j - j)%nat with 1%nat by lia. reflexivity.
Qed.

(** The end that the modelled host finds is the one [Move Down Current
    Line.js] searches for. *)
Lemma lineRangeHost_unfold (t : jsstring) (sel : Z * Z) :
  lineRangeHost t sel =
    (scanBack nl t (Z.to_nat (fst sel)) + 1, nextEndOf t (snd sel)).
Proof. reflexivity. Qed.

(** The modelled host, with the caret at the start of a line, answers
    with the range of that line. *)
Lemma lineRangeHost_on_line (before : list jsstring) (c : jsstring) (after : list jsstring) :
  noNewline c ->
  lineRangeHost (joinLines (before ++ c :: after))
                (strlen (linesBefore before), strlen (linesBefore before)) =
    lineRangeOf (before ++ c :: after) (length before).
Proof.
  intros Hc. unfold lineRangeOf. rewrite lineStart_at, joinLines_app.
  replace (nth (length before) (before ++ c :: after) []) with c
    by (rewrite app_nth2 by lia; rewrite Nat.sub_diag; reflexivity).
  rewrite lineRangeHost_unfold. cbn [fst snd].
  rewrite nextEndOf_line by (exact Hc || apply linesAfter_shape).
  f_equal. unfold strlen at 1. rewrite Nat2Z.id.
  rewrite scanBack_app_low by lia.
  destruct (linesBefore_shape before) as [E|[A' E]]; rewrite E.
  - reflexivity.
  - rewrite scanBack_hit. lengths.
Qed.

(* ================================================================= *)
(** ** The swap on line [i] of a buffer *)

Section OnLines.

Variable host : jsstring -> Z * Z -> Z * Z.
Variable ed : Editor.

(** Moving up the second of two neighbouring lines. *)
Lemma Move_Up_between (before : list jsstring) (p c : jsstring) (after : list jsstring) :
  noNewline p ->
  text ed = joinLines (before ++ p :: c :: after) ->
  host (text ed) (selection ed) =
    lineRangeOf (before ++ p :: c :: after) (S (length before)) ->
  2 <= lineStart (before ++ p :: c :: after) (S (length before)) ->
  prevStartAt host ed = strlen (linesBefore before) /\
  editorAfter (Move_Up_Current_Line host ed) =
    mkEditor (joinLines (before ++ c :: p :: after))
             (strlen (linesBefore before), strlen (linesBefore before)).
Proof.
  intros Hp Et Eh H2.
  unfold lineRangeOf in Eh. rewrite lineStart_next in Eh, H2.
  replace (nth (S (length before)) (before ++ p :: c :: after) []) with c in Eh
    by (rewrite app_nth2 by lia;
        replace (S (length before) - length before)%nat with 1%nat by lia;
        reflexivity).
  rewrite joinLines_app. rewrite joinLines_app in Et.
  replace (linesBefore before ++ c ++ linesAfter (p :: after))
    with (linesBefore before ++ (c ++ [nl] ++ p) ++ linesAfter after)
    by (unfold linesAfter; simpl; rewrite <- !app_assoc; reflexivity).
  apply Move_Up_on_line.
  - rewrite Et. unfold linesAfter. simpl. rewrite <- !app_assoc. reflexivity.
  - exact Eh.
  - exact Hp.
  - apply linesBefore_shape.
  - lia.
Qed.

(** Moving down the first of two neighbouring lines. *)
Lemma Move_Down_between (before : list jsstring) (c n : jsstring) (after : list jsstring) :
  noNewline n ->
  text ed = joinLines (before ++ c :: n :: after) ->
  host (text ed) (selection ed) =
    lineRangeOf (before ++ c :: n :: after) (length before) ->
  n <> [] \/ after <> [] ->
  editorAfter (Move_Down_Current_Line host ed) =
    mkEditor (joinLines (before ++ n :: c :: after)) (selection ed).
Proof.
  intros Hn Et Eh Hne.
  unfold lineRangeOf in Eh. rewrite lineStart_at in Eh.
  replace (nth (length before) (before ++ c :: n :: after) []) with c in Eh
    by (rewrite app_nth2 by lia; rewrite Nat.sub_diag; reflexivity).
  rewrite joinLines_app. rewrite joinLines_app in Et.
  replace (linesBefore before ++ n ++ linesAfter (c :: after))
    with (linesBefore before ++ (n ++ [nl] ++ c) ++ linesAfter after)
    by (unfold linesAfter; simpl; rewrite <- !app_assoc; reflexivity).
  apply Move_Down_on_line.
  - rewrite Et. unfold linesAfter. simpl. rewrite <- !app_assoc. reflexivity.
  - exact Eh.
  - exact Hn.
  - apply linesAfter_shape.
  - destruct Hne as [Hne|Hne].
    + destruct n; [congruence|]. pose proof (strlen_nonneg (linesAfter after)). lengths.
    + destruct after as [|l after]; [congruence|].
      pose proof (strlen_nonneg n). unfold linesAfter. simpl. 
      pose proof (strlen_nonneg (l ++ concat (map (fun l0 => nl :: l0) after))).
      lengths.
Qed.

End OnLines.

(** On the modelled host the two selections of a round trip are the ones
    the host reports by itself: the caret at the start of the second of
    two neighbouring lines goes up with its line, and a "move line down"
    from there puts the two lines back. *)
Lemma round_trip_on_lineRangeHost
    (before : list jsstring) (p c : jsstring) (after : list jsstring) :
  noNewline p -> noNewline c ->
  1 <= strlen (linesBefore before) + strlen p ->
  p <> [] \/ after <> [] ->
  let s := strlen (linesBefore (before ++ [p])) in
  let ed := mkEditor (joinLines (before ++ p :: c :: after)) (s, s) in
  let ed1 := editorAfter (Move_Up_Current_Line lineRangeHost ed) in
  selection ed1 = (strlen (linesBefore before), strlen (linesBefore before)) /\
  text ed1 = joinLines (before ++ c :: p :: after) /\
  text (editorAfter (Move_Down_Current_Line lineRangeHost ed1)) = text ed.
Proof.
  intros Hp Hc H1 Hne s ed ed1.
  assert (Eh : lineRangeHost (text ed) (selection ed) =
               lineRangeOf (before ++ p :: c :: after) (S (length before))).
  { unfold ed, s. simpl.
    replace (before ++ p :: c :: after) with ((before ++ [p]) ++ c :: after)
      by (rewrite <- app_assoc; reflexivity).
    rewrite lineRangeHost_on_line by exact Hc.
    f_equal. rewrite length_app. simpl. lia. }
  destruct (Move_Up_between lineRangeHost ed before p c after Hp eq_refl Eh) as [_ E1].
  { rewrite lineStart_next. lia. }
  fold ed1 in E1. rewrite E1. cbn [text selection]. split; [reflexivity|].
  split; [reflexivity|].
  rewrite (Move_Down_between lineRangeHost
             (mkEditor (joinLines (before ++ c :: p :: after))
                       (strlen (linesBefore before), strlen (linesBefore before)))
             before c p after Hp eq_refl).
  - reflexivity.
  - cbn [text selection]. apply lineRangeHost_on_line. exact Hc.
  - exact Hne.
Qed.

(* ================================================================= *)
(** ** Properties of the actions *)

Ltac no_newlines := repeat (constructor; try discriminate).

(** C1 (amended): for a buffer of newline-free lines and the host's line
    range on line [i > 0], when that line starts at offset 2 or later,
    "move line up" yields the buffer with lines [i-1] and [i] exchanged,
    of the same length, with the caret collapsed at [prevStart], the start
    offset of the relocated line in the new buffer. *)
Theorem move_up_swaps_with_previous_line
    (host : jsstring -> Z * Z -> Z * Z) (ed : Editor)
    (ls : list jsstring) (i : nat) :
  Forall noNewline ls ->
  (0 < i < length ls)%nat ->
  text ed = joinLines ls ->
  host (text ed) (selection ed) = lineRangeOf ls i ->
  2 <= lineStart ls i ->
  let ed' := editorAfter (Move_Up_Current_Line host ed) in
  text ed' = joinLines (swapLines (i - 1) ls) /\
  strlen (text ed') = strlen (text ed) /\
  selection ed' = (prevStartAt host ed, prevStartAt host ed) /\
  prevStartAt host ed = lineStart (swapLines (i - 1) ls) (i - 1).
Proof.
  intros Hls Hi Et Eh H2.
  destruct (lines_split ls (i - 1)) as (before & p & c & after & -> & Lb & _ & _);
    [lia|].
  assert (Ei : i = S (length before)) by lia. subst i.
  replace (S (length before) - 1)%nat with (length before) by lia.
  assert (Hp : noNewline p).
  { rewrite Forall_forall in Hls. apply Hls. apply in_or_app. right. left. reflexivity. }
  destruct (Move_Up_between host ed before p c after Hp Et Eh H2) as [Eps Eed].
  simpl. rewrite Eed, Eps, swapLines_at, lineStart_at. simpl.
  repeat split; try reflexivity.
  rewrite Et, !joinLines_app. unfold linesAfter. simpl.
  rewrite !strlen_app. unfold strlen. simpl length. rewrite !length_app. lia.
Qed.

Lemma move_up_swaps_with_previous_line_witness :
  let ed := mkEditor (joinLines abcLines) (2, 2) in
  let ed' := editorAfter (Move_Up_Current_Line lineRangeHost ed) in
  text ed' = joinLines (swapLines 0 abcLines) /\
  strlen (text ed') = strlen (text ed) /\
  selection ed' = (prevStartAt lineRangeHost ed, prevStartAt lineRangeHost ed) /\
  prevStartAt lineRangeHost ed = lineStart (swapLines 0 abcLines) 0.
Proof.
  apply (move_up_swaps_with_previous_line lineRangeHost
           (mkEditor (joinLines abcLines) (2, 2)) abcLines 1).
  - unfold abcLines. no_newlines.
  - simpl. lia.
  - reflexivity.
  - reflexivity.
  - vm_compute. discriminate.
Defined.

(** C1 as stated fails on the buffer ["\nb"] with the caret on its second
    line: the line range is that of line 1, and the buffer is left as it
    is instead of becoming ["b\n"]. *)
Lemma move_up_swaps_with_previous_line_counterexample :
  let ls := emptyFirstLines in
  let ed := mkEditor (joinLines ls) (1, 1) in
  let ed' := editorAfter (Move_Up_Current_Line lineRangeHost ed) in
  Forall noNewline ls /\ (2 <= length ls)%nat /\ (0 < 1 < length ls)%nat /\
  lineRangeHost (text ed) (selection ed) = lineRangeOf ls 1 /\
  text ed' = text ed /\
  text ed' <> joinLines (swapLines (1 - 1) ls).
Proof.
  simpl. repeat split; try lia; try discriminate.
  unfold emptyFirstLines. no_newlines.
Qed.

(** C2: when the line range starts at offset 0 or 1, so that
    [prevEnd = start - 1 <= 0], "move line up" makes no
    [replaceTextInRange] and no [setSelectedRange] call, leaves text and
    selection as they are, and ends normally. *)
Theorem move_up_on_first_line_is_noop
    (host : jsstring -> Z * Z -> Z * Z) (ed : Editor) :
  startOf host ed - 1 <= 0 ->
  let r := Move_Up_Current_Line host ed in
  text (editorAfter r) = text ed /\
  selection (editorAfter r) = selection ed /\
  (forall c, In c (callsOf r) -> isReplace c = false /\ isSelect c = false) /\
  mutationsOf r = [] /\
  result r = tt.
Proof.
  intros H. simpl. rewrite (Move_Up_skips host ed H).
  unfold editorAfter, mutationsOf, callsOf, result. simpl.
  repeat split; try reflexivity;
    destruct H0 as [<-|[<-|[<-|[]]]]; reflexivity.
Qed.

Lemma move_up_on_first_line_is_noop_witness :
  let ed := mkEditor (joinLines abcLines) (0, 0) in
  let r := Move_Up_Current_Line lineRangeHost ed in
  text (editorAfter r) = text ed /\
  selection (editorAfter r) = selection ed /\
  (forall c, In c (callsOf r) -> isReplace c = false /\ isSelect c = false) /\
  mutationsOf r = [] /\
  result r = tt.
Proof.
  apply (move_up_on_first_line_is_noop lineRangeHost
           (mkEditor (joinLines abcLines) (0, 0))).
  vm_compute. discriminate.
Defined.

(** C3: when the line range ends at the end of the buffer or one short of
    it, so that [nextStart = end + 1 >= length], "move line down" makes no
    mutating call, leaves the buffer as it is, and ends normally. *)
Theorem move_down_on_last_line_is_noop
    (host : jsstring -> Z * Z -> Z * Z) (ed : Editor) :
  strlen (text ed) <= endOf host ed + 1 ->
  let r := Move_Down_Current_Line host ed in
  editorAfter r = ed /\
  (forall c, In c (callsOf r) -> isReplace c = false /\ isSelect c = false) /\
  mutationsOf r = [] /\
  result r = tt.
Proof.
  intros H. simpl. rewrite (Move_Down_skips host ed H).
  unfold editorAfter, mutationsOf, callsOf, result. simpl.
  repeat split; try reflexivity;
    destruct H0 as [<-|[<-|[<-|[]]]]; reflexivity.
Qed.

Lemma move_down_on_last_line_is_noop_witness :
  let ed := mkEditor (joinLines abcLines) (4, 4) in
  let r := Move_Down_Current_Line lineRangeHost ed in
  editorAfter r = ed /\
  (forall c, In c (callsOf r) -> isReplace c = false /\ isSelect c = false) /\
  mutationsOf r = [] /\
  result r = tt.
Proof.
  apply (move_down_on_last_line_is_noop lineRangeHost
           (mkEditor (joinLines abcLines) (4, 4))).
  vm_compute. discriminate.
Defined.

(** C4 (amended): when "move line up" swaps line [i] with line [i-1] and
    "move line down" is then run on the relocated line, the buffer has its
    original content again, provided the line that was passed is not
    empty or the moved line was not the last of the buffer. *)
Theorem move_up_then_down_restores
    (host : jsstring -> Z * Z -> Z * Z) (ed : Editor)
    (ls : list jsstring) (i : nat) :
  Forall noNewline ls ->
  (0 < i < length ls)%nat ->
  text ed = joinLines ls ->
  host (text ed) (selection ed) = lineRangeOf ls i ->
  2 <= lineStart ls i ->
  let ed1 := editorAfter (Move_Up_Current_Line host ed) in
  host (text ed1) (selection ed1) = lineRangeOf (swapLines (i - 1) ls) (i - 1) ->
  nth (i - 1) ls [] <> [] \/ (S i < length ls)%nat ->
  text (editorAfter (Move_Down_Current_Line host ed1)) = text ed.
Proof.
  intros Hls Hi Et Eh H2.
  destruct (lines_split ls (i - 1)) as (before & p & c & after & -> & Lb & Ep & _);
    [lia|].
  assert (Ei : i = S (length before)) by lia. subst i.
  replace (S (length before) - 1)%nat with (length before) in * by lia.
  assert (Hp : noNewline p).
  { rewrite Forall_forall in Hls. apply Hls. apply in_or_app. right. left. reflexivity. }
  destruct (Move_Up_between host ed before p c after Hp Et Eh H2) as [_ Eed].
  simpl. rewrite Eed, swapLines_at. intros Eh1 Hne.
  rewrite (Move_Down_between host
             (mkEditor (joinLines (before ++ c :: p :: after))
                       (strlen (linesBefore before), strlen (linesBefore before)))
             before c p after Hp eq_refl Eh1).
  - simpl. symmetry. exact Et.
  - destruct Hne as [Hne|Hne].
    + left. rewrite Ep in Hne. exact Hne.
    + right. rewrite length_app in Hne. simpl in Hne.
      destruct after; [simpl in Hne; lia|discriminate].
Qed.

Lemma move_up_then_down_restores_witness :
  let ed := mkEditor (joinLines abcLines) (2, 2) in
  let ed1 := editorAfter (Move_Up_Current_Line lineRangeHost ed) in
  text (editorAfter (Move_Down_Current_Line lineRangeHost ed1)) = text ed.
Proof.
  apply (move_up_then_down_restores lineRangeHost
           (mkEditor (joinLines abcLines) (2, 2)) abcLines 1).
  - unfold abcLines. no_newlines.
  - simpl. lia.
  - reflexivity.
  - reflexivity.
  - vm_compute. discriminate.
  - reflexivity.
  - left. discriminate.
Defined.

(** C4 as stated fails on the buffer ["a\n\nb"] with the caret on its
    last line: "move line up" swaps and gives ["a\nb\n"], the relocated
    line is the one the host then reports, and "move line down" leaves
    that buffer as it is. *)
Lemma move_up_then_down_restores_counterexample :
  let ls := emptyMiddleLines in
  let ed := mkEditor (joinLines ls) (3, 3) in
  let up := Move_Up_Current_Line lineRangeHost ed in
  let ed1 := editorAfter up in
  Forall noNewline ls /\
  lineRangeHost (text ed) (selection ed) = lineRangeOf ls 2 /\
  existsb isReplace (callsOf up) = true /\
  lineRangeHost (text ed1) (selection ed1) = lineRangeOf (swapLines 1 ls) 1 /\
  fst (lineRangeHost (text ed1) (selection ed1)) = fst (selection ed1) /\
  text (editorAfter (Move_Down_Current_Line lineRangeHost ed1)) <> text ed.
Proof.
  simpl. repeat split; try discriminate.
  unfold emptyMiddleLines. no_newlines.
Qed.

(** C6: on a well-formed line range, whenever either action runs its
    mutation, the replacement is as long as the span it replaces, so the
    buffer keeps its length; after "move line up" the caret is an offset
    of the new buffer, and after "move line down" the selection, which the
    script does not touch, is within the new buffer as it was within the
    old one. *)
Theorem swap_preserves_length_and_caret
    (host : jsstring -> Z * Z -> Z * Z) (ed : Editor) :
  validRange (text ed) (host (text ed) (selection ed)) ->
  (0 < startOf host ed - 1 ->
   let ed' := editorAfter (Move_Up_Current_Line host ed) in
   strlen (currentLineOf host ed ++ [nl] ++ prevLineOf host ed) =
     endOf host ed - prevStartAt host ed /\
   strlen (text ed') = strlen (text ed) /\
   selection ed' = (prevStartAt host ed, prevStartAt host ed) /\
   0 <= prevStartAt host ed <= strlen (text ed')) /\
  (endOf host ed + 1 < strlen (text ed) ->
   let ed' := editorAfter (Move_Down_Current_Line host ed) in
   strlen (nextLineOf host ed ++ [nl] ++ currentLineOf host ed) =
     nextEndAt host ed - startOf host ed /\
   strlen (text ed') = strlen (text ed) /\
   (validRange (text ed) (selection ed) -> validRange (text ed') (selection ed'))).
Proof.
  intros Hv. split; intros G.
  - destruct (Move_Up_shape host ed Hv G) as (a & p & u & c & d & Et & La & Le & Ep & Ec & Et').
    assert (Es : selection (editorAfter (Move_Up_Current_Line host ed)) =
                 (prevStartAt host ed, prevStartAt host ed))
      by (rewrite (Move_Up_swaps host ed G); reflexivity).
    simpl. rewrite Et', Et, Ep, Ec, Es, <- La.
    pose proof (strlen_nonneg a).
    repeat split; try lengths.
  - destruct (Move_Down_shape host ed Hv G) as (a & c & u & n & d & Et & La & Le & En & Ec & Et').
    assert (Es : selection (editorAfter (Move_Down_Current_Line host ed)) = selection ed)
      by (rewrite (Move_Down_swaps host ed G); reflexivity).
    simpl. rewrite Es, En, Ec.
    assert (L : strlen (text (editorAfter (Move_Down_Current_Line host ed))) =
                strlen (text ed)) by (rewrite Et', Et; lengths).
    split; [lengths|]. split; [exact L|].
    intros [[V0 V1] V2]. unfold validRange. rewrite L.
    repeat split; assumption.
Qed.

Lemma swap_preserves_length_and_caret_witness :
  let ed := mkEditor (joinLines abcLines) (2, 2) in
  strlen (text (editorAfter (Move_Up_Current_Line lineRangeHost ed))) = strlen (text ed) /\
  strlen (text (editorAfter (Move_Down_Current_Line lineRangeHost ed))) = strlen (text ed) /\
  validRange (text (editorAfter (Move_Down_Current_Line lineRangeHost ed)))
             (selection (editorAfter (Move_Down_Current_Line lineRangeHost ed))).
Proof.
  assert (Hv : validRange (joinLines abcLines) (lineRangeHost (joinLines abcLines) (2, 2)))
    by (vm_compute; repeat split; discriminate).
  destruct (swap_preserves_length_and_caret lineRangeHost
              (mkEditor (joinLines abcLines) (2, 2)) Hv) as [Up Down].
  destruct Up as (_ & L1 & _); [vm_compute; reflexivity|].
  destruct Down as (_ & L2 & V); [vm_compute; reflexivity|].
  split; [exact L1|]. split; [exact L2|].
  apply V. vm_compute. repeat split; discriminate.
Defined.

(** C7: on a well-formed line range, when "move line up" takes its
    mutation branch it makes one [replaceTextInRange] call, on the span
    [[prevStart, end)] with the current line, one newline and the previous
    line, and then one [setSelectedRange] call that collapses the
    selection at [prevStart]; the buffer is the old one with that span
    replaced, every position outside the span holds what it held, and the
    script returns nothing. *)
Theorem move_up_single_mutation
    (host : jsstring -> Z * Z -> Z * Z) (ed : Editor) :
  validRange (text ed) (host (text ed) (selection ed)) ->
  0 < startOf host ed - 1 ->
  let r := Move_Up_Current_Line host ed in
  let prevStart := prevStartAt host ed in
  let replacement := currentLineOf host ed ++ [nl] ++ prevLineOf host ed in
  mutationsOf r =
    [CallReplaceTextInRange prevStart (endOf host ed) replacement;
     CallSetSelectedRange prevStart None] /\
  text (editorAfter r) =
    firstn (Z.to_nat prevStart) (text ed) ++ replacement ++
    skipn (Z.to_nat (endOf host ed)) (text ed) /\
  selection (editorAfter r) = (prevStart, prevStart) /\
  (forall k : nat,
     Z.of_nat k < prevStart \/ endOf host ed <= Z.of_nat k ->
     nth_error (text (editorAfter r)) k = nth_error (text ed) k) /\
  result r = tt.
Proof.
  intros Hv G.
  destruct (Move_Up_shape host ed Hv G) as (a & p & u & c & d & Et & La & Le & Ep & Ec & Et').
  pose proof (prevStartOf_bounds (text ed) (startOf host ed - 1) G) as B.
  fold (prevStartAt host ed) in B.
  destruct Hv as [[H0 H1] H2]. fold (startOf host ed) in H0, H1.
  fold (endOf host ed) in H1, H2.
  simpl. split; [|split; [|split; [|split]]].
  - rewrite (Move_Up_swaps host ed G). reflexivity.
  - rewrite (Move_Up_swaps host ed G). unfold editorAfter, replaceInRange. simpl.
    replace (Z.max (prevStartAt host ed) (endOf host ed)) with (endOf host ed) by lia.
    reflexivity.
  - rewrite (Move_Up_swaps host ed G). reflexivity.
  - intros k Hk. rewrite Et', Et. apply nth_error_outside; lengths.
  - rewrite (Move_Up_swaps host ed G). reflexivity.
Qed.

Lemma move_up_single_mutation_witness :
  let ed := mkEditor (joinLines abcLines) (2, 2) in
  let r := Move_Up_Current_Line lineRangeHost ed in
  mutationsOf r =
    [CallReplaceTextInRange 0 3 ["b"; nl; "a"]%char; CallSetSelectedRange 0 None] /\
  selection (editorAfter r) = (0, 0).
Proof.
  assert (Hv : validRange (joinLines abcLines) (lineRangeHost (joinLines abcLines) (2, 2)))
    by (vm_compute; repeat split; discriminate).
  destruct (move_up_single_mutation lineRangeHost
              (mkEditor (joinLines abcLines) (2, 2)) Hv) as (M & _ & S & _).
  - vm_compute. reflexivity.
  - split; [exact M|exact S].
Defined.

(** C8: on a well-formed line range, when "move line down" takes its
    mutation branch it makes one [replaceTextInRange] call, on the span
    [[start, nextEnd)] with the next line, one newline and the current
    line, and no [setSelectedRange] call; the buffer is the old one with
    that span replaced, every position outside the span holds what it
    held, and the selection component is the one the script found. *)
Theorem move_down_single_mutation
    (host : jsstring -> Z * Z -> Z * Z) (ed : Editor) :
  validRange (text ed) (host (text ed) (selection ed)) ->
  endOf host ed + 1 < strlen (text ed) ->
  let r := Move_Down_Current_Line host ed in
  let nextEnd := nextEndAt host ed in
  let replacement := nextLineOf host ed ++ [nl] ++ currentLineOf host ed in
  mutationsOf r = [CallReplaceTextInRange (startOf host ed) nextEnd replacement] /\
  filter isSelect (callsOf r) = [] /\
  text (editorAfter r) =
    firstn (Z.to_nat (startOf host ed)) (text ed) ++ replacement ++
    skipn (Z.to_nat nextEnd) (text ed) /\
  selection (editorAfter r) = selection ed /\
  (forall k : nat,
     Z.of_nat k < startOf host ed \/ nextEnd <= Z.of_nat k ->
     nth_error (text (editorAfter r)) k = nth_error (text ed) k) /\
  result r = tt.
Proof.
  intros Hv G.
  destruct (Move_Down_shape host ed Hv G) as (a & c & u & n & d & Et & La & Le & En & Ec & Et').
  destruct Hv as [[H0 H1] H2]. fold (startOf host ed) in H0, H1.
  fold (endOf host ed) in H1, H2.
  assert (B : endOf host ed + 1 <= nextEndAt host ed <= strlen (text ed))
    by (apply nextEndOf_bounds; lia).
  simpl. split; [|split; [|split; [|split; [|split]]]].
  - rewrite (Move_Down_swaps host ed G). reflexivity.
  - rewrite (Move_Down_swaps host ed G). reflexivity.
  - rewrite (Move_Down_swaps host ed G). unfold editorAfter, replaceInRange. simpl.
    replace (Z.max (startOf host ed) (nextEndAt host ed)) with (nextEndAt host ed) by lia.
    reflexivity.
  - rewrite (Move_Down_swaps host ed G). reflexivity.
  - intros k Hk. rewrite Et', Et. apply nth_error_outside; lengths.
  - rewrite (Move_Down_swaps host ed G). reflexivity.
Qed.

Lemma move_down_single_mutation_witness :
  let ed := mkEditor (joinLines abcLines) (2, 2) in
  let r := Move_Down_Current_Line lineRangeHost ed in
  mutationsOf r = [CallReplaceTextInRange 2 5 ["c"; nl; "b"]%char] /\
  filter isSelect (callsOf r) = [] /\
  selection (editorAfter r) = (2, 2).
Proof.
  assert (Hv : validRange (joinLines abcLines) (lineRangeHost (joinLines abcLines) (2, 2)))
    by (vm_compute; repeat split; discriminate).
  destruct (move_down_single_mutation lineRangeHost
              (mkEditor (joinLines abcLines) (2, 2)) Hv) as (M & N & _ & S & _).
  - vm_compute. reflexivity.
  - split; [exact M|]. split; [exact N|exact S].
Defined.

(** C9: "move line up" makes its [replaceTextInRange] call exactly when
    the line range starts at offset 2 or later.  In particular, on a
    buffer that begins with a newline, with the line range starting at
    offset 1, the script changes nothing and makes no mutating call,
    although the empty line at offset 0 lies above the current one. *)
Theorem move_up_mutates_iff_start_ge_2
    (host : jsstring -> Z * Z -> Z * Z) (ed : Editor) :
  (existsb isReplace (callsOf (Move_Up_Current_Line host ed)) = true <->
   2 <= startOf host ed) /\
  (forall rest : jsstring,
     text ed = nl :: rest -> startOf host ed = 1 ->
     (startOf host ed - 1 >? 0) = false /\
     textInRange (text ed) 0 (startOf host ed - 1) = [] /\
     editorAfter (Move_Up_Current_Line host ed) = ed /\
     mutationsOf (Move_Up_Current_Line host ed) = []).
Proof.
  split.
  - destruct (Z_lt_le_dec 0 (startOf host ed - 1)) as [G|G].
    + rewrite (Move_Up_swaps host ed G). simpl. split; [lia|reflexivity].
    + rewrite (Move_Up_skips host ed G). simpl. split; [discriminate|lia].
  - intros rest Et Es.
    rewrite (Move_Up_skips host ed) by lia. rewrite Es.
    repeat split.
Qed.

Lemma move_up_mutates_iff_start_ge_2_witness :
  let ed := mkEditor (joinLines emptyFirstLines) (1, 1) in
  editorAfter (Move_Up_Current_Line lineRangeHost ed) = ed /\
  mutationsOf (Move_Up_Current_Line lineRangeHost ed) = [].
Proof.
  destruct (move_up_mutates_iff_start_ge_2 lineRangeHost
              (mkEditor (joinLines emptyFirstLines) (1, 1))) as [_ H].
  destruct (H ["b"%char]) as (_ & _ & E & M).
  - reflexivity.
  - reflexivity.
  - split; [exact E|exact M].
Defined.

(** C10: with absolute positions, the guard of the trim action reads the
    range [[eol - 1, 1)], which holds nothing once [start + end >= 2]; the
    guard then fails, [eol] stays [start + end], and the run leaves the
    editor as the single call [setSelectedRange(start, end)] does, with
    that call as its only mutating call. *)
Theorem trim_is_plain_reselection
    (host : jsstring -> Z * Z -> Z * Z) (ed : Editor) :
  2 <= startOf host ed + endOf host ed ->
  let r := Select_Line_Without_Newline host ed in
  let single := setSelectedRange (startOf host ed) (Some (endOf host ed)) ed in
  textInRange (text ed) (startOf host ed + endOf host ed - 1) 1 = [] /\
  streq (textInRange (text ed) (startOf host ed + endOf host ed - 1) 1) [nl] = false /\
  editorAfter r = editorAfter single /\
  mutationsOf r = callsOf single /\
  result r = result single /\
  selection (editorAfter r) = (startOf host ed, endOf host ed) /\
  text (editorAfter r) = text ed.
Proof.
  intros H. simpl.
  rewrite (Select_Line_keeps host ed H), (trim_guard_reads_nothing host ed H).
  repeat split.
Qed.

Lemma trim_is_plain_reselection_witness :
  let ed := mkEditor (joinLines abcLines) (2, 2) in
  let r := Select_Line_Without_Newline lineRangeHost ed in
  editorAfter r = editorAfter (setSelectedRange 2 (Some 3) ed) /\
  mutationsOf r = [CallSetSelectedRange 2 (Some 3)].
Proof.
  destruct (trim_is_plain_reselection lineRangeHost
              (mkEditor (joinLines abcLines) (2, 2))) as (_ & _ & E & M & _).
  - vm_compute. discriminate.
  - split; [exact E|exact M].
Defined.

(** C5, evaluated on the buffer ["a\nb"] with the host's line range
    [[0, 2)], whose text ["a\n"] ends in a newline: the range to select is
    [[0, 1)], and the action selects [[0, 2)], newline included. *)
Theorem trim_keeps_trailing_newline :
  let ed := mkEditor ["a"; nl; "b"]%char (0, 0) in
  let host := fixedRangeHost (0, 2) in
  textInRange (text ed) 0 2 = ["a"; nl]%char /\
  endsWithNewline (textInRange (text ed) 0 2) = true /\
  trimmedRange (text ed) (host (text ed) (selection ed)) = (0, 1) /\
  selection (editorAfter (Select_Line_Without_Newline host ed)) = (0, 2) /\
  selection (editorAfter (Select_Line_Without_Newline host ed)) <>
    trimmedRange (text ed) (host (text ed) (selection ed)).
Proof.
  simpl. repeat split. discriminate.
Qed.

(* ================================================================= *)
(** ** The lines that the searches find *)

Lemma scanBack_spec (c : ascii) (t : jsstring) (n : nat) :
  (scanBack c t n = -1 /\
   forall k : nat, (k < n)%nat -> nth_error t k <> Some c) \/
  (0 <= scanBack c t n < Z.of_nat n /\
   nth_error t (Z.to_nat (scanBack c t n)) = Some c /\
   forall k : nat, scanBack c t n < Z.of_nat k < Z.of_nat n -> nth_error t k <> Some c).
Proof.
  induction n as [|m IH]; simpl.
  - left. split; [reflexivity|]. intros k Hk. lia.
  - destruct (nth_error t m) as [x|] eqn:E.
    + destruct (Ascii.eqb_spec x c) as [->|Hx].
      * right. rewrite Nat2Z.id. split; [lia|]. split; [exact E|].
        intros k Hk. lia.
      * destruct IH as [[R N]|(B & H & N)].
        -- left. split; [exact R|]. intros k Hk.
           destruct (Nat.eq_dec k m) as [->|Hkm].
           ++ rewrite E. congruence.
           ++ apply N. lia.
        -- right. split; [lia|]. split; [exact H|]. intros k Hk.
           destruct (Nat.eq_dec k m) as [->|Hkm].
           ++ rewrite E. congruence.
           ++ apply N. lia.
    + destruct IH as [[R N]|(B & H & N)].
      * left. split; [exact R|]. intros k Hk.
        destruct (Nat.eq_dec k m) as [->|Hkm].
        -- rewrite E. discriminate.
        -- apply N. lia.
      * right. split; [lia|]. split; [exact H|]. intros k Hk.
        destruct (Nat.eq_dec k m) as [->|Hkm].
        -- rewrite E. discriminate.
        -- apply N. lia.
Qed.

Lemma scanFwd_spec (c : ascii) (t : jsstring) (k0 : Z) :
  (scanFwd c t k0 = -1 /\ Forall (fun x => x <> c) t) \/
  (k0 <= scanFwd c t k0 /\
   nth_error t (Z.to_nat (scanFwd c t k0 - k0)) = Some c /\
   forall j : nat, Z.of_nat j < scanFwd c t k0 - k0 -> nth_error t j <> Some c).
Proof.
  revert k0. induction t as [|x t IH]; intros k0; simpl.
  - left. split; [reflexivity|constructor].
  - destruct (Ascii.eqb_spec x c) as [->|Hx].
    + right. split; [lia|]. rewrite Z.sub_diag. simpl. split; [reflexivity|].
      intros j Hj. lia.
    + destruct (IH (k0 + 1)) as [[R N]|(B & H & N)].
      * left. split; [exact R|]. constructor; assumption.
      * right. split; [lia|].
        replace (Z.to_nat (scanFwd c t (k0 + 1) - k0))
          with (S (Z.to_nat (scanFwd c t (k0 + 1) - (k0 + 1)))) by lia.
        split; [exact H|].
        intros [|j] Hj; simpl.
        -- congruence.
        -- apply N. lia.
Qed.

(** The units of a range are units of the buffer at positions of the
    range. *)
Lemma textInRange_units (t : jsstring) (s e : Z) (x : ascii) :
  0 <= s ->
  In x (textInRange t s e) ->
  exists k : nat, s <= Z.of_nat k < e /\ nth_error t k = Some x.
Proof.
  intros Hs Hin. unfold textInRange in Hin.
  apply In_nth_error in Hin. destruct Hin as [j Hj].
  rewrite nth_error_firstn, nth_error_skipn in Hj.
  destruct (Nat.ltb_spec j (Z.to_nat (e - Z.max 0 s))) as [L|L]; [|discriminate].
  exists (Z.to_nat s + j)%nat. split; [lia|exact Hj].
Qed.

Lemma textInRange_length (t : jsstring) (s e : Z) :
  0 <= s <= e -> e <= strlen t -> strlen (textInRange t s e) = e - s.
Proof.
  intros H He. unfold textInRange, strlen in *.
  rewrite length_firstn, length_skipn. lia.
Qed.

(** X4: for a position [prevEnd] inside the buffer, the start that
    [Move Up Current Line.js] computes is a line start at or before
    [prevEnd] -- offset 0 or the offset just after a newline -- and no
    newline lies from it up to [prevEnd]: the previous line the script
    reads is one whole line. *)
Theorem prevStartOf_is_line_start (t : jsstring) (prevEnd : Z) :
  0 < prevEnd <= strlen t ->
  let prevStart := prevStartOf t prevEnd in
  0 <= prevStart <= prevEnd /\
  (prevStart = 0 \/ nth_error t (Z.to_nat (prevStart - 1)) = Some nl) /\
  (forall k : nat, prevStart <= Z.of_nat k < prevEnd -> nth_error t k <> Some nl) /\
  noNewline (textInRange t prevStart prevEnd).
Proof.
  intros H. simpl.
  pose proof (prevStartOf_bounds t prevEnd (proj1 H)) as B.
  assert (K : (forall k : nat, prevStartOf t prevEnd <= Z.of_nat k < prevEnd ->
                 nth_error t k <> Some nl) /\
              (prevStartOf t prevEnd = 0 \/
               nth_error t (Z.to_nat (prevStartOf t prevEnd - 1)) = Some nl)).
  { unfold prevStartOf, lastIndexOf.
    replace (Z.to_nat (clamp (prevEnd - 1) 0 (strlen t - 1) + 1))
      with (Z.to_nat prevEnd) by (unfold clamp; lia).
    destruct (scanBack_spec nl t (Z.to_nat prevEnd)) as [[R N]|(Bd & Hit & N)].
    - rewrite R. simpl. split; [|left; reflexivity].
      intros k Hk. apply N. lia.
    - destruct (Z.eqb_spec (scanBack nl t (Z.to_nat prevEnd)) (-1)) as [E|E]; [lia|].
      split.
      + intros k Hk. apply N. lia.
      + right. replace (scanBack nl t (Z.to_nat prevEnd) + 1 - 1)
          with (scanBack nl t (Z.to_nat prevEnd)) by lia. exact Hit. }
  destruct K as [K1 K2].
  repeat split; try lia; try assumption.
  unfold noNewline. rewrite Forall_forall. intros x Hin ->.
  apply textInRange_units in Hin; [|lia].
  destruct Hin as (k & Hk & E). exact (K1 k Hk E).
Qed.

Lemma prevStartOf_is_line_start_witness :
  let t := joinLines abcLines in
  prevStartOf t 3 = 2 /\ nth_error t (Z.to_nat (2 - 1)) = Some nl /\
  noNewline (textInRange t (prevStartOf t 3) 3).
Proof.
  assert (H : 0 < 3 <= strlen (joinLines abcLines)) by (vm_compute; split; [reflexivity|discriminate]).
  pose proof (prevStartOf_is_line_start (joinLines abcLines) 3 H) as (_ & _ & _ & N).
  split; [reflexivity|]. split; [reflexivity|exact N].
Defined.

(** X5: for a position [nextStart] inside the buffer, the end that
    [Move Down Current Line.js] computes is a line end at or after
    [nextStart] -- the offset of a newline or the end of the buffer -- and
    no newline lies from [nextStart] up to it: the next line the script
    reads is one whole line. *)
Theorem nextEndOf_is_line_end (t : jsstring) (nextStart : Z) :
  0 <= nextStart <= strlen t ->
  let nextEnd := nextEndOf t nextStart in
  nextStart <= nextEnd <= strlen t /\
  (nextEnd = strlen t \/ nth_error t (Z.to_nat nextEnd) = Some nl) /\
  (forall k : nat, nextStart <= Z.of_nat k < nextEnd -> nth_error t k <> Some nl) /\
  noNewline (textInRange t nextStart nextEnd).
Proof.
  intros H. simpl.
  pose proof (nextEndOf_bounds t nextStart H) as B.
  assert (K : (forall k : nat, nextStart <= Z.of_nat k < nextEndOf t nextStart ->
                 nth_error t k <> Some nl) /\
              (nextEndOf t nextStart = strlen t \/
               nth_error t (Z.to_nat (nextEndOf t nextStart)) = Some nl)).
  { unfold nextEndOf, indexOf in *.
    replace (clamp nextStart 0 (strlen t)) with nextStart in * by (unfold clamp; lia).
    destruct (scanFwd_spec nl (skipn (Z.to_nat nextStart) t) nextStart)
      as [[R N]|(Bd & Hit & N)].
    - rewrite R in *. simpl in *. split; [|left; reflexivity].
      intros k Hk E.
      rewrite Forall_forall in N. apply (N nl); [|reflexivity].
      apply (nth_error_In _ (k - Z.to_nat nextStart)).
      rewrite nth_error_skipn.
      replace (Z.to_nat nextStart + (k - Z.to_nat nextStart))%nat with k by lia.
      exact E.
    - destruct (Z.eqb_spec (scanFwd nl (skipn (Z.to_nat nextStart) t) nextStart) (-1))
        as [E|E]; [lia|].
      rewrite nth_error_skipn in Hit. split.
      + intros k Hk Ek.
        apply (N (k - Z.to_nat nextStart)%nat); [lia|].
        rewrite nth_error_skipn.
        replace (Z.to_nat nextStart + (k - Z.to_nat nextStart))%nat with k by lia.
        exact Ek.
      + right. rewrite <- Hit. f_equal. lia. }
  destruct K as [K1 K2].
  repeat split; try lia; try assumption.
  unfold noNewline. rewrite Forall_forall. intros x Hin ->.
  apply textInRange_units in Hin; [|lia].
  destruct Hin as (k & Hk & E). exact (K1 k Hk E).
Qed.

Lemma nextEndOf_is_line_end_witness :
  let t := joinLines abcLines in
  nextEndOf t 2 = 3 /\ nth_error t (Z.to_nat 3) = Some nl /\
  noNewline (textInRange t 2 (nextEndOf t 2)).
Proof.
  assert (H : 0 <= 2 <= strlen (joinLines abcLines))
    by (vm_compute; split; discriminate).
  pose proof (nextEndOf_is_line_end (joinLines abcLines) 2 H) as (_ & _ & _ & N).
  split; [reflexivity|]. split; [reflexivity|exact N].
Defined.

(* ================================================================= *)
(** ** What a swap keeps of the buffer *)

(** Two spans around a separator [u] trade places around a newline: the
    units are the same ones exactly when [u] is a newline. *)
Lemma swap_keeps_units (a p : jsstring) (u : ascii) (c d : jsstring) :
  Permutation (a ++ (c ++ [nl] ++ p) ++ d) (a ++ (p ++ [u] ++ c) ++ d) <-> u = nl.
Proof.
  split.
  - intros P. rewrite (Permutation_count_occ ascii_dec) in P.
    specialize (P nl). rewrite !count_occ_app in P. simpl in P.
    destruct (ascii_dec nl nl) as [_|N]; [|congruence].
    destruct (ascii_dec u nl) as [E|N]; [exact E|lia].
  - intros ->. apply Permutation_app_head, Permutation_app_tail.
    simpl. rewrite <- !Permutation_middle. apply perm_skip, Permutation_app_comm.
Qed.

Lemma nth_error_middle (a p : jsstring) (u : ascii) (r : jsstring) (k : Z) :
  strlen a + strlen p = k -> nth_error (a ++ (p ++ [u] ++ r)) (Z.to_nat k) = Some u.
Proof.
  intros <-. unfold strlen. rewrite <- Nat2Z.inj_add, Nat2Z.id.
  rewrite nth_error_app2 by lia. rewrite nth_error_app2 by lia.
  replace (length a + length p - length a - length p)%nat with O by lia.
  reflexivity.
Qed.

(** X6: on a well-formed line range on which "move line up" runs its
    mutation, the new buffer holds the same characters as the old one,
    rearranged, exactly when the character just before the line range is
    a newline; otherwise that character is overwritten by the newline the
    script puts between the two lines. *)
Theorem move_up_keeps_characters_iff
    (host : jsstring -> Z * Z -> Z * Z) (ed : Editor) :
  validRange (text ed) (host (text ed) (selection ed)) ->
  0 < startOf host ed - 1 ->
  (Permutation (text (editorAfter (Move_Up_Current_Line host ed))) (text ed) <->
   nth_error (text ed) (Z.to_nat (startOf host ed - 1)) = Some nl).
Proof.
  intros Hv G.
  destruct (Move_Up_shape host ed Hv G)
    as (a & p & u & c & d & Et & La & Le & Ep & Ec & Et').
  pose proof (prevStartOf_bounds (text ed) (startOf host ed - 1) G) as B.
  fold (prevStartAt host ed) in B.
  destruct Hv as [[H0 H1] H2]. fold (startOf host ed) in H0, H1.
  fold (endOf host ed) in H1, H2.
  assert (Lp : strlen a + strlen p = startOf host ed - 1).
  { rewrite <- Ep. unfold prevLineOf. rewrite textInRange_length by lia. lia. }
  rewrite Et', Et at 1. rewrite swap_keeps_units.
  rewrite Et. rewrite <- !app_assoc.
  rewrite (nth_error_middle a p u (c ++ d) _ Lp).
  split; congruence.
Qed.

Lemma move_up_keeps_characters_iff_witness :
  let ed := mkEditor (joinLines abcLines) (2, 2) in
  Permutation (text (editorAfter (Move_Up_Current_Line lineRangeHost ed))) (text ed).
Proof.
  assert (Hv : validRange (joinLines abcLines) (lineRangeHost (joinLines abcLines) (2, 2)))
    by (vm_compute; repeat split; discriminate).
  apply (move_up_keeps_characters_iff lineRangeHost
           (mkEditor (joinLines abcLines) (2, 2)) Hv).
  - vm_compute. reflexivity.
  - reflexivity.
Defined.

(** X7: on a well-formed line range on which "move line down" runs its
    mutation, the new buffer holds the same characters as the old one,
    rearranged, exactly when the character at the end of the line range
    is a newline; otherwise that character is overwritten by the newline
    the script puts between the two lines. *)
Theorem move_down_keeps_characters_iff
    (host : jsstring -> Z * Z -> Z * Z) (ed : Editor) :
  validRange (text ed) (host (text ed) (selection ed)) ->
  endOf host ed + 1 < strlen (text ed) ->
  (Permutation (text (editorAfter (Move_Down_Current_Line host ed))) (text ed) <->
   nth_error (text ed) (Z.to_nat (endOf host ed)) = Some nl).
Proof.
  intros Hv G.
  destruct (Move_Down_shape host ed Hv G)
    as (a & c & u & n & d & Et & La & Le & En & Ec & Et').
  destruct Hv as [[H0 H1] H2]. fold (startOf host ed) in H0, H1.
  fold (endOf host ed) in H1, H2.
  assert (Lc : strlen a + strlen c = endOf host ed).
  { rewrite <- Ec. unfold currentLineOf. rewrite textInRange_length by lia. lia. }
  rewrite Et', Et at 1. rewrite swap_keeps_units.
  rewrite Et. rewrite <- !app_assoc.
  rewrite (nth_error_middle a c u (n ++ d) _ Lc).
  split; congruence.
Qed.

Lemma move_down_keeps_characters_iff_witness :
  let ed := mkEditor (joinLines abcLines) (2, 2) in
  Permutation (text (editorAfter (Move_Down_Current_Line lineRangeHost ed))) (text ed).
Proof.
  assert (Hv : validRange (joinLines abcLines) (lineRangeHost (joinLines abcLines) (2, 2)))
    by (vm_compute; repeat split; discriminate).
  apply (move_down_keeps_characters_iff lineRangeHost
           (mkEditor (joinLines abcLines) (2, 2)) Hv).
  - vm_compute. reflexivity.
  - reflexivity.
Defined.

(* ================================================================= *)
(** ** The trim action on every input *)

(** X8: whatever the buffer and the line range, the trim action never
    changes the text and never calls [replaceTextInRange]; its one
    mutating call is a [setSelectedRange] that starts at the start of the
    line range and ends at the end of the line range or one before it. *)
Theorem trim_only_reselects
    (host : jsstring -> Z * Z -> Z * Z) (ed : Editor) :
  let r := Select_Line_Without_Newline host ed in
  text (editorAfter r) = text ed /\
  filter isReplace (callsOf r) = [] /\
  fst (selection (editorAfter r)) = startOf host ed /\
  (snd (selection (editorAfter r)) = endOf host ed \/
   snd (selection (editorAfter r)) = endOf host ed - 1) /\
  mutationsOf r =
    [CallSetSelectedRange (startOf host ed) (Some (snd (selection (editorAfter r))))] /\
  result r = tt.
Proof.
  unfold Select_Line_Without_Newline, bind, getSelectedLineRange, getTextInRange,
    setSelectedRange, startOf, endOf, editorAfter, mutationsOf, callsOf, result.
  destruct (host (text ed) (selection ed)) as [s e]. simpl.
  destruct (streq (textInRange (text ed) (s + e - 1) 1) [nl]); simpl.
  - replace (s + e - 1 - s) with (e - 1) by lia.
    repeat split. right. reflexivity.
  - replace (s + e - s) with e by lia.
    repeat split. left. reflexivity.
Qed.

Lemma streq_unit (x : ascii) : streq [x] [nl] = Ascii.eqb x nl.
Proof. simpl. apply andb_true_r. Qed.

(** X9: on a well-formed line range with [start + end >= 1], the range
    that the trim action selects is the one the trim is to select -- the
    line range without its trailing newline when it has one, the line
    range itself otherwise -- exactly when the line text has no trailing
    newline or the line range is [[0, 1)]. *)
Theorem trim_agrees_iff
    (host : jsstring -> Z * Z -> Z * Z) (ed : Editor) :
  validRange (text ed) (host (text ed) (selection ed)) ->
  1 <= startOf host ed + endOf host ed ->
  (selection (editorAfter (Select_Line_Without_Newline host ed)) =
     trimmedRange (text ed) (host (text ed) (selection ed)) <->
   (endsWithNewline (currentLineOf host ed) = true ->
    startOf host ed = 0 /\ endOf host ed = 1)).
Proof.
  intros [[H0 H1] H2] H.
  fold (startOf host ed) in H0, H1. fold (endOf host ed) in H1, H2.
  unfold trimmedRange.
  fold (startOf host ed) (endOf host ed) (currentLineOf host ed).
  destruct (Z_le_gt_dec 2 (startOf host ed + endOf host ed)) as [G|G].
  - rewrite (Select_Line_keeps host ed G). unfold editorAfter. simpl.
    destruct (endsWithNewline (currentLineOf host ed)).
    + split.
      * intros E. injection E as E. lia.
      * intros K. destruct (K eq_refl). lia.
    + split; [discriminate|].
      intros _. unfold startOf, endOf.
      destruct (host (text ed) (selection ed)). reflexivity.
  - assert (Es : startOf host ed = 0) by lia.
    assert (Ee : endOf host ed = 1) by lia.
    revert H2. unfold currentLineOf. rewrite Es, Ee.
    unfold Select_Line_Without_Newline, bind, getSelectedLineRange, getTextInRange,
      setSelectedRange, editorAfter.
    unfold startOf, endOf in Es, Ee.
    destruct (host (text ed) (selection ed)) as [s e]. simpl in Es, Ee. subst s e.
    simpl. destruct (text ed) as [|x t]; [unfold strlen; simpl; lia|].
    intros _. change (textInRange (x :: t) 0 1) with [x].
    rewrite streq_unit. unfold endsWithNewline. simpl.
    destruct (Ascii.eqb x nl); simpl; split; auto.
Qed.

Lemma trim_agrees_iff_witness :
  let ed := mkEditor (joinLines emptyFirstLines) (0, 0) in
  let host := fixedRangeHost (0, 1) in
  selection (editorAfter (Select_Line_Without_Newline host ed)) = (0, 0) /\
  trimmedRange (text ed) (host (text ed) (selection ed)) = (0, 0).
Proof.
  assert (Hv : validRange (joinLines emptyFirstLines)
                 (fixedRangeHost (0, 1) (joinLines emptyFirstLines) (0, 0)))
    by (vm_compute; repeat split; discriminate).
  assert (H1 : 1 <= startOf (fixedRangeHost (0, 1))
                      (mkEditor (joinLines emptyFirstLines) (0, 0)) +
                    endOf (fixedRangeHost (0, 1))
                      (mkEditor (joinLines emptyFirstLines) (0, 0)))
    by (vm_compute; discriminate).
  pose proof (proj2 (trim_agrees_iff (fixedRangeHost (0, 1))
                       (mkEditor (joinLines emptyFirstLines) (0, 0)) Hv H1)) as K.
  assert (E : selection (editorAfter (Select_Line_Without_Newline (fixedRangeHost (0, 1))
                           (mkEditor (joinLines emptyFirstLines) (0, 0)))) =
              trimmedRange (joinLines emptyFirstLines) (0, 1)).
  { apply K. intros _. split; reflexivity. }
  split; [exact E|reflexivity].
Defined.

(* ================================================================= *)
(** ** Moving a line down, and the two moves together *)

(** X1: for a buffer of newline-free lines and the host's line range on
    line [i], which has a next line that is not empty or is not the last
    one, "move line down" yields the buffer with lines [i] and [i+1]
    exchanged, of the same length, and leaves the selection alone; the
    moved line then starts after the line that took its place. *)
Theorem move_down_swaps_with_next_line
    (host : jsstring -> Z * Z -> Z * Z) (ed : Editor)
    (ls : list jsstring) (i : nat) :
  Forall noNewline ls ->
  (S i < length ls)%nat ->
  text ed = joinLines ls ->
  host (text ed) (selection ed) = lineRangeOf ls i ->
  nth (S i) ls [] <> [] \/ (S (S i) < length ls)%nat ->
  let ed' := editorAfter (Move_Down_Current_Line host ed) in
  text ed' = joinLines (swapLines i ls) /\
  strlen (text ed') = strlen (text ed) /\
  selection ed' = selection ed /\
  lineStart (swapLines i ls) (S i) = lineStart ls i + strlen (nth (S i) ls []) + 1.
Proof.
  intros Hls Hi Et Eh Hne.
  destruct (lines_split ls i Hi) as (before & c & n & after & -> & Lb & _ & En).
  subst i.
  assert (Hn : noNewline n).
  { rewrite Forall_forall in Hls. apply Hls. apply in_or_app. right. right. left.
    reflexivity. }
  assert (Hne' : n <> [] \/ after <> []).
  { destruct Hne as [Hne|Hne].
    - left. rewrite En in Hne. exact Hne.
    - right. rewrite length_app in Hne. simpl in Hne.
      destruct after; [simpl in Hne; lia|discriminate]. }
  rewrite En.
  pose proof (Move_Down_between host ed before c n after Hn Et Eh Hne') as Eed.
  simpl. rewrite Eed, swapLines_at, lineStart_next, lineStart_at. simpl.
  repeat split; try reflexivity.
  rewrite Et, !joinLines_app. unfold linesAfter. simpl.
  rewrite !strlen_app. unfold strlen. simpl length. rewrite !length_app. lia.
Qed.

Lemma move_down_swaps_with_next_line_witness :
  let ed := mkEditor (joinLines abcLines) (0, 0) in
  let ed' := editorAfter (Move_Down_Current_Line lineRangeHost ed) in
  text ed' = joinLines (swapLines 0 abcLines) /\
  strlen (text ed') = strlen (text ed) /\
  selection ed' = selection ed /\
  lineStart (swapLines 0 abcLines) 1 = lineStart abcLines 0 + strlen (nth 1 abcLines []) + 1.
Proof.
  apply (move_down_swaps_with_next_line lineRangeHost
           (mkEditor (joinLines abcLines) (0, 0)) abcLines 0).
  - unfold abcLines. no_newlines.
  - simpl. lia.
  - reflexivity.
  - reflexivity.
  - left. discriminate.
Defined.

(** X2: on a buffer that ends with a newline, "move line down" on the
    line just before that newline changes nothing, although the empty
    last line lies below it. *)
Theorem move_down_before_final_newline_is_noop
    (host : jsstring -> Z * Z -> Z * Z) (ed : Editor)
    (before : list jsstring) (c : jsstring) :
  text ed = joinLines (before ++ [c; []]) ->
  host (text ed) (selection ed) = lineRangeOf (before ++ [c; []]) (length before) ->
  nth_error (text ed) (Z.to_nat (endOf host ed)) = Some nl /\
  endOf host ed + 1 = strlen (text ed) /\
  editorAfter (Move_Down_Current_Line host ed) = ed /\
  mutationsOf (Move_Down_Current_Line host ed) = [].
Proof.
  intros Et Eh.
  unfold lineRangeOf in Eh. rewrite lineStart_at in Eh.
  replace (nth (length before) (before ++ [c; []]) []) with c in Eh
    by (rewrite app_nth2 by lia; rewrite Nat.sub_diag; reflexivity).
  assert (Ee : endOf host ed = strlen (linesBefore before) + strlen c)
    by (unfold endOf; rewrite Eh; reflexivity).
  rewrite joinLines_app in Et. unfold linesAfter in Et. simpl in Et.
  assert (L : endOf host ed + 1 = strlen (text ed)) by (rewrite Ee, Et; lengths).
  rewrite (Move_Down_skips host ed) by lia.
  repeat split; try assumption.
  rewrite Ee, Et.
  replace (linesBefore before ++ c ++ [nl])
    with (linesBefore before ++ (c ++ [nl] ++ [])) by reflexivity.
  apply nth_error_middle. reflexivity.
Qed.

Lemma move_down_before_final_newline_is_noop_witness :
  let ed := mkEditor (joinLines [["a"]; ["b"]; []]%char) (2, 2) in
  editorAfter (Move_Down_Current_Line lineRangeHost ed) = ed /\
  mutationsOf (Move_Down_Current_Line lineRangeHost ed) = [].
Proof.
  destruct (move_down_before_final_newline_is_noop lineRangeHost
              (mkEditor (joinLines [["a"]; ["b"]; []]%char) (2, 2))
              [["a"%char]] ["b"%char]) as (_ & _ & E & M).
  - reflexivity.
  - reflexivity.
  - split; [exact E|exact M].
Defined.

(** X3: "move line up" on line [i+1] and "move line down" on line [i] of
    the same buffer give the same text, the lines [i] and [i+1]
    exchanged, whenever both run their swap: line [i+1] starts at offset 2
    or later, and it is not empty or not the last line. *)
Theorem move_up_and_move_down_agree
    (host : jsstring -> Z * Z -> Z * Z) (edUp edDown : Editor)
    (ls : list jsstring) (i : nat) :
  Forall noNewline ls ->
  (S i < length ls)%nat ->
  text edUp = joinLines ls -> text edDown = joinLines ls ->
  host (text edUp) (selection edUp) = lineRangeOf ls (S i) ->
  host (text edDown) (selection edDown) = lineRangeOf ls i ->
  2 <= lineStart ls (S i) ->
  nth (S i) ls [] <> [] \/ (S (S i) < length ls)%nat ->
  text (editorAfter (Move_Up_Current_Line host edUp)) =
    text (editorAfter (Move_Down_Current_Line host edDown)) /\
  text (editorAfter (Move_Up_Current_Line host edUp)) = joinLines (swapLines i ls).
Proof.
  intros Hls Hi EtU EtD EhU EhD H2 Hne.
  destruct (lines_split ls i Hi) as (before & p & c & after & -> & Lb & _ & Ec).
  subst i.
  assert (Hp : noNewline p).
  { rewrite Forall_forall in Hls. apply Hls. apply in_or_app. right. left. reflexivity. }
  assert (Hc : noNewline c).
  { rewrite Forall_forall in Hls. apply Hls. apply in_or_app. right. right. left.
    reflexivity. }
  assert (Hne' : c <> [] \/ after <> []).
  { destruct Hne as [Hne|Hne].
    - left. rewrite Ec in Hne. exact Hne.
    - right. rewrite length_app in Hne. simpl in Hne.
      destruct after; [simpl in Hne; lia|discriminate]. }
  destruct (Move_Up_between host edUp before p c after Hp EtU EhU H2) as [_ EU].
  pose proof (Move_Down_between host edDown before p c after Hc EtD EhD Hne') as ED.
  rewrite EU, ED, swapLines_at. split; reflexivity.
Qed.

Lemma move_up_and_move_down_agree_witness :
  let edUp := mkEditor (joinLines abcLines) (2, 2) in
  let edDown := mkEditor (joinLines abcLines) (0, 0) in
  text (editorAfter (Move_Up_Current_Line lineRangeHost edUp)) =
    text (editorAfter (Move_Down_Current_Line lineRangeHost edDown)) /\
  text (editorAfter (Move_Up_Current_Line lineRangeHost edUp)) =
    joinLines (swapLines 0 abcLines).
Proof.
  apply (move_up_and_move_down_agree lineRangeHost
           (mkEditor (joinLines abcLines) (2, 2))
           (mkEditor (joinLines abcLines) (0, 0)) abcLines 0).
  - unfold abcLines. no_newlines.
  - simpl. lia.
  - reflexivity.
  - reflexivity.
  - reflexivity.
  - reflexivity.
  - vm_compute. discriminate.
  - left. discriminate.
Defined.

Lemma linesBefore_nonempty (before : list jsstring) :
  before <> [] -> 1 <= strlen (linesBefore before).
Proof.
  destruct before as [|b before]; [congruence|]. intros _.
  unfold linesBefore. simpl.
  pose proof (strlen_nonneg (concat (map (fun l => l ++ [nl]) before))).
  lengths.
Qed.

(** X10: when "move line down" swaps line [i] with line [i+1] and "move
    line up" is then run with the relocated line selected, the buffer has
    its original content again, provided the relocated line starts at
    offset 2 or later: line [i] was not the first line, or the line that
    took its place is not empty. *)
Theorem move_down_then_up_restores
    (host : jsstring -> Z * Z -> Z * Z) (ed : Editor)
    (ls : list jsstring) (i : nat) (sel2 : Z * Z) :
  Forall noNewline ls ->
  (S i < length ls)%nat ->
  text ed = joinLines ls ->
  host (text ed) (selection ed) = lineRangeOf ls i ->
  nth (S i) ls [] <> [] \/ (S (S i) < length ls)%nat ->
  let ed1 := editorAfter (Move_Down_Current_Line host ed) in
  let ed2 := mkEditor (text ed1) sel2 in
  host (text ed2) (selection ed2) = lineRangeOf (swapLines i ls) (S i) ->
  (0 < i)%nat \/ nth (S i) ls [] <> [] ->
  text (editorAfter (Move_Up_Current_Line host ed2)) = text ed.
Proof.
  intros Hls Hi Et Eh Hne.
  destruct (lines_split ls i Hi) as (before & c & n & after & -> & Lb & _ & En).
  subst i. rewrite En in *.
  assert (Hn : noNewline n).
  { rewrite Forall_forall in Hls. apply Hls. apply in_or_app. right. right. left.
    reflexivity. }
  assert (Hne' : n <> [] \/ after <> []).
  { destruct Hne as [Hne|Hne].
    - left. exact Hne.
    - right. rewrite length_app in Hne. simpl in Hne.
      destruct after; [simpl in Hne; lia|discriminate]. }
  pose proof (Move_Down_between host ed before c n after Hn Et Eh Hne') as Eed.
  simpl. rewrite Eed, swapLines_at. cbn [text selection]. intros Eh2 Hup.
  destruct (Move_Up_between host
              (mkEditor (joinLines (before ++ n :: c :: after)) sel2)
              before n c after Hn eq_refl Eh2) as [_ E2].
  - rewrite lineStart_next.
    destruct Hup as [Hup|Hup].
    + pose proof (linesBefore_nonempty before) as L.
      pose proof (strlen_nonneg n).
      assert (before <> []) by (destruct before; [simpl in Hup; lia|discriminate]).
      specialize (L H0). lia.
    + pose proof (strlen_nonneg (linesBefore before)).
      destruct n; [congruence|]. lengths.
  - rewrite E2. simpl. symmetry. exact Et.
Qed.

Lemma move_down_then_up_restores_witness :
  let ed := mkEditor (joinLines abcLines) (0, 0) in
  let ed1 := editorAfter (Move_Down_Current_Line lineRangeHost ed) in
  let ed2 := mkEditor (text ed1) (2, 2) in
  text (editorAfter (Move_Up_Current_Line lineRangeHost ed2)) = text ed.
Proof.
  apply (move_down_then_up_restores lineRangeHost
           (mkEditor (joinLines abcLines) (0, 0)) abcLines 0 (2, 2)).
  - unfold abcLines. no_newlines.
  - simpl. lia.
  - reflexivity.
  - reflexivity.
  - left. discriminate.
  - reflexivity.
  - right. discriminate.
Defined.

(* ================================================================= *)
(** ** Pressing "move line up" again and again *)

Section Repeated.

Variable host : jsstring -> Z * Z -> Z * Z.
Hypothesis Hhost : followsLines host.

(** One press, with the caret at the start of a line below another. *)
Lemma moveUpStep_between (before : list jsstring) (p c : jsstring) (after : list jsstring) :
  noNewline p -> noNewline c ->
  1 <= strlen (linesBefore before) + strlen p ->
  let s := strlen (linesBefore (before ++ [p])) in
  moveUpStep host (mkEditor (joinLines ((before ++ [p]) ++ c :: after)) (s, s)) =
    mkEditor (joinLines (before ++ c :: p :: after))
             (strlen (linesBefore before), strlen (linesBefore before)).
Proof.
  intros Hp Hc H1 s. unfold moveUpStep.
  pose proof (Hhost (before ++ [p]) c after Hc) as Eh. fold s in Eh.
  assert (El : (before ++ [p]) ++ c :: after = before ++ p :: c :: after)
    by (rewrite <- app_assoc; reflexivity).
  rewrite El in *.
  replace (length (before ++ [p])) with (S (length before)) in Eh
    by (rewrite length_app; simpl; lia).
  destruct (Move_Up_between host
              (mkEditor (joinLines (before ++ p :: c :: after)) (s, s))
              before p c after Hp eq_refl Eh) as [_ E].
  - rewrite lineStart_next. lia.
  - exact E.
Qed.

(** At the top the press does nothing. *)
Lemma moveUpStep_top (c : jsstring) (rest : list jsstring) :
  noNewline c ->
  moveUpStep host (mkEditor (joinLines (c :: rest)) (0, 0)) =
    mkEditor (joinLines (c :: rest)) (0, 0).
Proof.
  intros Hc. unfold moveUpStep.
  pose proof (Hhost [] c rest Hc) as Eh.
  rewrite Move_Up_skips; [reflexivity|].
  unfold startOf. cbn [text selection].
  change (strlen (linesBefore [])) with 0 in Eh.
  change ([] ++ c :: rest) with (c :: rest) in Eh.
  rewrite Eh. simpl. lia.
Qed.

Lemma moveUp_to_top (before : list jsstring) :
  forall (c : jsstring) (after : list jsstring),
  Forall noNewline before -> noNewline c ->
  before = [] \/ hd [] before <> [] ->
  let s := strlen (linesBefore before) in
  Nat.iter (length before) (moveUpStep host)
    (mkEditor (joinLines (before ++ c :: after)) (s, s)) =
    mkEditor (joinLines (c :: before ++ after)) (0, 0).
Proof.
  induction before as [|p before IH] using rev_ind; intros c after Hb Hc Hhd.
  - reflexivity.
  - apply Forall_app in Hb. destruct Hb as [Hb Hp].
    inversion Hp as [|? ? Hp' _]; subst.
    rewrite length_app, Nat.add_comm. cbn [length Nat.add].
    rewrite Nat.iter_succ_r. cbv zeta.
    rewrite moveUpStep_between; [|exact Hp'|exact Hc|].
    + rewrite (IH c (p :: after) Hb Hc).
      * rewrite <- app_assoc. reflexivity.
      * destruct before as [|b before]; [left; reflexivity|].
        right. destruct Hhd as [Hhd|Hhd]; [discriminate|exact Hhd].
    + destruct before as [|b before].
      * destruct Hhd as [Hhd|Hhd]; [discriminate|]. simpl in Hhd.
        destruct p; [congruence|].
        change (strlen (linesBefore [])) with 0. lengths.
      * pose proof (linesBefore_nonempty (b :: before)) as L.
        pose proof (strlen_nonneg p).
        assert (b :: before <> []) by discriminate.
        specialize (L H0). lia.
Qed.

End Repeated.

(** X11: on a host that follows the lines, with the caret at the start
    of a line that has [k] lines above it, the first of them not empty,
    [k] presses of "move line up" bring the line to the top of the buffer
    with the caret at offset 0, the lines above it one place down in
    their order, and any further press changes nothing. *)
Theorem move_up_repeated_reaches_top
    (host : jsstring -> Z * Z -> Z * Z)
    (before : list jsstring) (c : jsstring) (after : list jsstring) (more : nat) :
  followsLines host ->
  Forall noNewline before -> noNewline c ->
  before = [] \/ hd [] before <> [] ->
  let s := strlen (linesBefore before) in
  Nat.iter (more + length before) (moveUpStep host)
    (mkEditor (joinLines (before ++ c :: after)) (s, s)) =
    mkEditor (joinLines (c :: before ++ after)) (0, 0).
Proof.
  intros Hhost Hb Hc Hhd s.
  induction more as [|more IH].
  - apply moveUp_to_top; assumption.
  - change (S more + length before)%nat with (S (more + length before)).
    rewrite Nat.iter_succ, IH.
    apply moveUpStep_top; assumption.
Qed.

Lemma move_up_repeated_reaches_top_witness :
  Nat.iter (1 + 2) (moveUpStep lineRangeHost) (mkEditor (joinLines abcLines) (4, 4)) =
    mkEditor (joinLines [["c"]; ["a"]; ["b"]]%char) (0, 0).
Proof.
  apply (move_up_repeated_reaches_top lineRangeHost
           [["a"]; ["b"]]%char ["c"%char] [] 1).
  - intros before c after Hc. apply lineRangeHost_on_line. exact Hc.
  - no_newlines.
  - no_newlines.
  - right. discriminate.
Defined.
